(** * MereTable: nested-column ASCII tables

    A shallow embedding of [src/MereTable.h] (namespace [awkward]): the class
    [Column] (a tree of column headers with the cell values at its leaves and
    a cached [width]) and the class [MereTable] (the top-level columns and the
    row counter), followed by the properties of the width computation, of the
    row ingestion and of the line renderer.

    Conventions of the embedding.
    - [int] is a [Z] kept in the 32-bit signed range by [to_int]; [size_t] is
      a [Z] kept below [2^64] by [to_size].  Every conversion the C++ source
      performs implicitly is written out, and an [int] increment wraps the
      same way.  The properties that compare the code with unbounded
      arithmetic carry the hypothesis that the widths fit in [int].
    - A [std::string] is a [string]; [std::vector<T>] is a [list T].
    - Operations whose C++ behaviour is undefined on some inputs (division
      by zero, dereferencing an iterator at the end of its range, indexing a
      vector past its size) run in the error monad [res] and report the
      corresponding [fault]. *)

From Stdlib Require Import ZArith List String Ascii Bool Lia.
Import ListNotations.
Set Warnings "-register-all".
Local Open Scope string_scope.
Local Open Scope list_scope.
Local Open Scope Z_scope.

(* ================================================================= *)
(** ** Machine integers *)

Definition int_min : Z := - 2 ^ 31.
Definition int_max : Z := 2 ^ 31 - 1.

(** Conversion to [int]: the low 32 bits, read as a signed number. *)
Definition to_int (z : Z) : Z := (z + 2 ^ 31) mod 2 ^ 32 - 2 ^ 31.

(** Conversion to [size_t] (64 bits, unsigned). *)
Definition to_size (z : Z) : Z := z mod 2 ^ 64.

(** [std::max<int>(a, b)]: both arguments are converted to [int] first. *)
Definition max_int (a b : Z) : Z := Z.max (to_int a) (to_int b).

(** [s.size()] of a string and [v.size()] of a vector. *)
Definition ssize (s : string) : Z := Z.of_nat (String.length s).
Definition vsize {A : Type} (v : list A) : Z := Z.of_nat (List.length v).

(* ================================================================= *)
(** ** Faults and the error monad *)

Inductive fault : Type :=
| DivisionByZero   (* [x / 0] or [x % 0] *)
| PastTheEnd       (* [*it] with [it] at the end of the range *)
| OutOfRange.      (* [v[i]] with [i >= v.size()] *)

Inductive res (A : Type) : Type :=
| OK (a : A)
| Err (f : fault).
Arguments OK {A} a.
Arguments Err {A} f.

Definition bind {A B : Type} (m : res A) (k : A -> res B) : res B :=
  match m with
  | OK a => k a
  | Err f => Err f
  end.

Declare Scope res_scope.
Delimit Scope res_scope with res.
Notation "x <- m ;; k" := (bind m (fun x => k))
  (at level 61, m at next level, right associativity) : res_scope.
Notation "' p <- m ;; k" := (bind m (fun x => match x with p => k end))
  (at level 61, p pattern, m at next level, right associativity) : res_scope.
Local Open Scope res_scope.

(** Unsigned division and remainder of [size_t] operands. *)
Definition size_div (a b : Z) : res Z :=
  if b =? 0 then Err DivisionByZero else OK (a / b).
Definition size_mod (a b : Z) : res Z :=
  if b =? 0 then Err DivisionByZero else OK (a mod b).

(** [for (auto &x : l) ...] with a fallible body, left to right. *)
Section Traversals.
Context {A B : Type} (f : A -> res B).

Fixpoint mapM (l : list A) : res (list B) :=
  match l with
  | [] => OK []
  | x :: l' => y <- f x ;; r <- mapM l' ;; OK (y :: r)
  end.
End Traversals.

(* ================================================================= *)
(** ** class Column *)

Module Column.

Inductive t : Type :=
  mk {
    title : string;
    width : Z;
    columns : list t;
    values : list string
  }.

(** Structural induction that reaches the subcolumns. *)
Section Induction.
Variable P : t -> Prop.
Hypothesis step : forall ti w cs vs,
    Forall P cs -> P (mk ti w cs vs).

Fixpoint ind_forall (c : t) : P c :=
  match c with
  | mk ti w cs vs =>
      step ti w cs vs
        ((fix go (l : list t) : Forall P l :=
            match l with
            | [] => Forall_nil P
            | x :: l' => Forall_cons x (ind_forall x) (go l')
            end) cs)
  end.
End Induction.

(** [Column(std::string title)] *)
Definition new (ti : string) : t := mk ti 0 [] [].

(** [void AddColumn(std::string title)] *)
Definition AddColumn (c : t) (ti : string) : t :=
  mk (title c) (width c) (columns c ++ [new ti]) (values c).

(** [for (auto &column : columns) column.ConsumeValues(it);] *)
Section ConsumeLoop.
Variable consume : t -> list string -> res (t * list string).

Fixpoint consume_all (l : list t) (it : list string)
  : res (list t * list string) :=
  match l with
  | [] => OK ([], it)
  | x :: l' =>
      ' (x', it1) <- consume x it ;;
      ' (r, it2) <- consume_all l' it1 ;;
      OK (x' :: r, it2)
  end.
End ConsumeLoop.

(** [template <typename It> void ConsumeValues(It& it)].  The iterator is
    the list of the values not consumed yet; [*it] at the end of the range
    is the fault [PastTheEnd]. *)
Fixpoint ConsumeValues (c : t) (it : list string) : res (t * list string) :=
  match c with
  | mk ti w cs vs =>
      match cs with
      | _ :: _ =>
          ' (cs', it') <- consume_all ConsumeValues cs it ;;
          OK (mk ti w cs' vs, it')
      | [] =>
          match it with
          | v :: it' => OK (mk ti w [] (vs ++ [v]), it')
          | [] => Err PastTheEnd
          end
      end
  end.

(** [void Clear() noexcept] *)
Fixpoint Clear (c : t) : t :=
  match c with
  | mk ti w cs _ => mk ti w (map Clear cs) []
  end.

(** [column.width = maxSubcolumnWidth;] *)
Definition set_width (w : Z) (c : t) : t :=
  mk (title c) w (columns c) (values c).

(** The first loop of [UpdateWidth] over the subcolumns: each subcolumn is
    updated in place and the running maximum of their widths is kept. *)
Section UpdateLoop.
Variable update : t -> res t.

Fixpoint update_all (l : list t) (maxSub : Z) : res (list t * Z) :=
  match l with
  | [] => OK ([], maxSub)
  | x :: l' =>
      x' <- update x ;;
      ' (r, m) <- update_all l' (max_int (width x') maxSub) ;;
      OK (x' :: r, m)
  end.
End UpdateLoop.

(** The straight-line part of [UpdateWidth] after that loop: from the
    title width, the largest subcolumn width and the number of subcolumns
    to the pair (width of the group, width given to every subcolumn). *)
Definition group_width (w maxSub n : Z) : res (Z * Z) :=
  let allSub := to_int (to_size (to_size maxSub * n)) in
  ' (maxSub, allSub) <-
    (if w >? allSub then
       q <- size_div (to_size w) n ;;
       r <- size_mod (to_size w) n ;;
       let m := to_int q in
       let m := if negb (r =? 0) then to_int (m + 1) else m in
       OK (m, to_int (to_size (to_size m * n)))
     else OK (maxSub, allSub)) ;;
  OK (to_int (to_size (to_size (to_size allSub + n) - 1)), maxSub).

(** [void UpdateWidth()] *)
Fixpoint UpdateWidth (c : t) : res t :=
  match c with
  | mk ti _ cs vs =>
      let w := to_int (ssize ti) in
      match cs with
      | [] =>
          OK (mk ti (fold_left (fun w v => max_int w (ssize v)) vs w) [] vs)
      | _ :: _ =>
          ' (cs', maxSub) <- update_all UpdateWidth cs 0 ;;
          ' (w', maxSub') <- group_width w maxSub (vsize cs) ;;
          OK (mk ti w' (map (set_width maxSub') cs') vs)
      end
  end.

End Column.

(* ================================================================= *)
(** ** class MereTable *)

Module MereTable.

Record t : Type :=
  mk {
    columns : list Column.t;
    numRows : Z
  }.

(** [MereTable() = default] *)
Definition empty : t := mk [] 0.

(** [MereTable& AddColumns(std::initializer_list<std::string> columns)]:
    every name is converted to a [Column] and pushed back. *)
Definition AddColumns (tb : t) (names : list string) : t :=
  mk (columns tb ++ map Column.new names) (numRows tb).

(** [MereTable(std::initializer_list<std::string> columns)] *)
Definition create (names : list string) : t := AddColumns empty names.

(** [Find]: the position of the first column with that title, if any
    (the source returns the iterator and whether it is not the end). *)
Fixpoint Find (cs : list Column.t) (columnName : string) : option nat :=
  match cs with
  | [] => None
  | c :: cs' =>
      if String.eqb (Column.title c) columnName then Some O
      else option_map S (Find cs' columnName)
  end.

(** [AddColumn(subcolumnName)] on the column at position [i]. *)
Fixpoint add_sub_at (cs : list Column.t) (i : nat) (sub : string)
  : list Column.t :=
  match cs, i with
  | [], _ => []
  | c :: cs', O => Column.AddColumn c sub :: cs'
  | c :: cs', S j => c :: add_sub_at cs' j sub
  end.

(** [MereTable& AddSubcolumn(std::string columnName, std::string subcolumnName)] *)
Definition AddSubcolumn (tb : t) (columnName subcolumnName : string) : t :=
  match Find (columns tb) columnName with
  | None =>
      mk (columns tb ++ [Column.AddColumn (Column.new columnName) subcolumnName])
         (numRows tb)
  | Some i => mk (add_sub_at (columns tb) i subcolumnName) (numRows tb)
  end.

(** [MereTable& AddColumn(std::string columnName)] *)
Definition AddColumn (tb : t) (columnName : string) : t :=
  match Find (columns tb) columnName with
  | None => mk (columns tb ++ [Column.new columnName]) (numRows tb)
  | Some _ => tb
  end.

(** [MereTable& AddValues(std::initializer_list<std::string> values)].
    The values left over when the last column is done are dropped with the
    iterator.  [numRows++] is an [int] increment. *)
Definition AddValues (tb : t) (vals : list string) : res t :=
  ' (cs, _) <- Column.consume_all Column.ConsumeValues (columns tb) vals ;;
  OK (mk cs (to_int (numRows tb + 1))).

(** [void UpdateWidth()] *)
Definition UpdateWidth (tb : t) : res t :=
  cs <- mapM Column.UpdateWidth (columns tb) ;;
  OK (mk cs (numRows tb)).

(** [MereTable& Clear()] *)
Definition Clear (tb : t) : res t :=
  UpdateWidth (mk (map Column.Clear (columns tb)) 0).

(** *** The lambdas of [ToString]

    The stream [os] is the string built so far; every printer returns the
    text it appends. *)

Definition pad (fill : ascii) (n : Z) : string :=
  string_of_list_ascii (repeat fill (Z.to_nat n)).

(** [os << std::setfill(fill) << std::setw(width) << what << border]:
    [what] is right-adjusted in a field of [width] (never cut), then the
    field width is back to 0 for [border]. *)
Definition print (fill border : ascii) (width : Z) (what : string) : string :=
  (pad fill (width - ssize what) ++ what ++ String border EmptyString)%string.

Definition printer : Type := Column.t -> res string.

Definition printTitle (border : ascii) : printer :=
  fun what => OK (print " " border (Column.width what) (Column.title what)).

Definition printFill (fill border : ascii) : printer :=
  fun what =>
    OK (print fill border (Column.width what) (String fill EmptyString)).

Definition forEachSubcolumn (f : printer) : printer :=
  fun what =>
    ss <- mapM f (Column.columns what) ;; OK (String.concat "" ss).

Definition makePrintEl (ifNotSubcolumns ifHasSubcolumns : printer) : printer :=
  fun what =>
    match Column.columns what with
    | [] => ifNotSubcolumns what
    | _ :: _ => ifHasSubcolumns what
    end.

Definition newline : string := String (ascii_of_nat 10) EmptyString.

Definition printLine (cols : list Column.t) (leftborder : ascii)
           (pr : printer) : res string :=
  ss <- mapM pr cols ;;
  OK (String leftborder (String.concat "" ss) ++ newline)%string.

(** [print(' ', '|', what.width, what.values[i])] *)
Definition printColumnValue (i : Z) : printer :=
  fun what =>
    match nth_error (Column.values what) (Z.to_nat i) with
    | Some v => OK (print " " "|" (Column.width what) v)
    | None => Err OutOfRange
    end.

Definition printValue (i : Z) : printer :=
  makePrintEl (printColumnValue i) (forEachSubcolumn (printColumnValue i)).

(** The five lines of the header. *)
Definition header (cols : list Column.t) : res (list string) :=
  l1 <- printLine cols "+"
          (makePrintEl (printFill "-" "+") (printFill "-" "+")) ;;
  l2 <- printLine cols "|"
          (makePrintEl (printFill " " "|") (printTitle "|")) ;;
  l3 <- printLine cols "|"
          (makePrintEl (printTitle "|")
             (forEachSubcolumn (printFill "-" "+"))) ;;
  l4 <- printLine cols "|"
          (makePrintEl (printFill " " "|")
             (forEachSubcolumn (printTitle "|"))) ;;
  l5 <- printLine cols "+"
          (makePrintEl (printFill "=" "+")
             (forEachSubcolumn (printFill "=" "+"))) ;;
  OK [l1; l2; l3; l4; l5].

(** [for ( ; i < numRows; i++ ) printLine('|', printValue);] *)
Definition rows (cols : list Column.t) (numRows : Z) : res (list string) :=
  mapM (fun i => printLine cols "|" (printValue (Z.of_nat i)))
       (seq 0 (Z.to_nat numRows)).

Definition footer (cols : list Column.t) : res string :=
  printLine cols "+"
    (makePrintEl (printFill "-" "+")
       (forEachSubcolumn (printFill "-" "+"))).

(** The lines [ToString] writes, in order, each with its final newline,
    for a table whose widths are up to date. *)
Definition lines (tb : t) : res (list string) :=
  h <- header (columns tb) ;;
  r <- rows (columns tb) (numRows tb) ;;
  f <- footer (columns tb) ;;
  OK (h ++ r ++ [f]).

(** [std::string ToString()]: the table with refreshed widths and the
    text. *)
Definition ToString (tb : t) : res (t * string) :=
  tb' <- UpdateWidth tb ;;
  ls <- lines tb' ;;
  OK (tb', String.concat "" ls).

(** [friend std::ostream& operator << (std::ostream& os, MereTable& t)]:
    the stream is the text written to it so far. *)
Definition operator_lshift (os : string) (tb : t) : res (string * t) :=
  p <- ToString tb ;; OK ((os ++ snd p)%string, fst p).

End MereTable.

(* ================================================================= *)
(** ** Definitions used to state the properties *)

(** *** The width of a column as the specification words it *)

(** Integer division rounded up. *)
Definition ceil_div (a b : Z) : Z := (a + b - 1) / b.

(** The largest element of a list of widths (0 for no width at all). *)
Definition max_list (l : list Z) : Z := fold_right Z.max 0 l.

(** A leaf is as wide as the longest of its title and its values.  A group
    of [n] subcolumns is [m * n + (n - 1)] wide, where [m] is the largest
    width of its subcolumns, or [ceil (title length / n)] when the title is
    longer than [m * n]. *)
Fixpoint spec_width (c : Column.t) : Z :=
  match c with
  | Column.mk ti _ cs vs =>
      match cs with
      | [] => Z.max (ssize ti) (max_list (map ssize vs))
      | _ :: _ =>
          let n := vsize cs in
          let m := max_list (map spec_width cs) in
          let m := if ssize ti >? m * n then ceil_div (ssize ti) n else m in
          m * n + (n - 1)
      end
  end.

(** The width every subcolumn of a group ends with. *)
Definition spec_sub_width (c : Column.t) : Z :=
  let n := vsize (Column.columns c) in
  let m := max_list (map spec_width (Column.columns c)) in
  if ssize (Column.title c) >? m * n
  then ceil_div (ssize (Column.title c)) n else m.

(** Nothing computed for [c] leaves the range of [int]. *)
Definition fits (c : Column.t) : Prop := spec_width c <= int_max.

(** The largest subcolumn width as the loop of [UpdateWidth] accumulates
    it. *)
Definition running_max (us : list Column.t) (m0 : Z) : Z :=
  fold_left (fun m u => max_int (Column.width u) m) us m0.

(** *** Shapes of column trees *)

(** The invariant of the data model: no column has both subcolumns and
    values. *)
Definition leaf_or_group (c : Column.t) : Prop :=
  Column.columns c = [] \/ Column.values c = [].

(** The leaf columns below a column, depth first, left to right. *)
Fixpoint leaves (c : Column.t) : list Column.t :=
  match c with
  | Column.mk _ _ cs _ =>
      match cs with
      | [] => [c]
      | _ :: _ => flat_map leaves cs
      end
  end.

Definition table_leaves (tb : MereTable.t) : list Column.t :=
  flat_map leaves (MereTable.columns tb).

(** The values held by the leaves, leaf by leaf. *)
Definition leaf_values (tb : MereTable.t) : list (list string) :=
  map Column.values (table_leaves tb).

(** All the columns of a tree, the root first. *)
Fixpoint nodes (c : Column.t) : list Column.t :=
  match c with
  | Column.mk _ _ cs _ => c :: flat_map nodes cs
  end.

(** No column of the tree holds a value. *)
Definition no_values (c : Column.t) : Prop :=
  Forall (fun x => Column.values x = []) (nodes c).

(** The titles and the tree, without the widths and the values. *)
Fixpoint skeleton (c : Column.t) : Column.t :=
  match c with
  | Column.mk ti _ cs _ => Column.mk ti 0 (map skeleton cs) []
  end.

(** The tree with its titles and values, without the cached widths. *)
Fixpoint strip (c : Column.t) : Column.t :=
  match c with
  | Column.mk ti _ cs vs => Column.mk ti 0 (map strip cs) vs
  end.

(** The subcolumns of [c] have no subcolumns of their own. *)
Definition flat (c : Column.t) : Prop :=
  Forall (fun x => Column.columns x = []) (Column.columns c).

(** The states of a [MereTable] object: its fields are private, so it is
    what the constructors and the public member functions make of it. *)
Inductive reachable : MereTable.t -> Prop :=
| reach_empty : reachable MereTable.empty
| reach_AddColumns tb names :
    reachable tb -> reachable (MereTable.AddColumns tb names)
| reach_AddColumn tb name :
    reachable tb -> reachable (MereTable.AddColumn tb name)
| reach_AddSubcolumn tb name sub :
    reachable tb -> reachable (MereTable.AddSubcolumn tb name sub)
| reach_AddValues tb vals tb' :
    reachable tb -> MereTable.AddValues tb vals = OK tb' -> reachable tb'
| reach_Clear tb tb' :
    reachable tb -> MereTable.Clear tb = OK tb' -> reachable tb'
| reach_ToString tb tb' txt :
    reachable tb -> MereTable.ToString tb = OK (tb', txt) -> reachable tb'.

(** *** Rows *)

(** One row appended to the leaves: the j-th value goes to the end of the
    j-th leaf. *)
Definition append_row (cols : list (list string)) (row : list string)
  : list (list string) :=
  map (fun p => fst p ++ [snd p]) (combine cols row).

(** [tb.AddValues(r1).AddValues(r2)...] *)
Fixpoint AddRows (tb : MereTable.t) (rows : list (list string))
  : res MereTable.t :=
  match rows with
  | [] => OK tb
  | r :: rows' => tb' <- MereTable.AddValues tb r ;; AddRows tb' rows'
  end.

(** *** Rendered text *)

(** The text between the newlines of a rendered table. *)
Fixpoint split_lines_from (cur : string) (s : string) : list string :=
  match s with
  | EmptyString =>
      match cur with
      | EmptyString => []
      | _ => [cur]
      end
  | String a s' =>
      if Ascii.eqb a (ascii_of_nat 10)
      then cur :: split_lines_from EmptyString s'
      else split_lines_from (cur ++ String a EmptyString)%string s'
  end.

Definition split_lines (s : string) : list string :=
  split_lines_from EmptyString s.

(** The rendered text of a table, if rendering goes through. *)
Definition text_of (tb : MereTable.t) : res string :=
  p <- MereTable.ToString tb ;; OK (snd p).

(** The lines [ToString] writes for a table. *)
Definition rendered_lines (tb : MereTable.t) : res (list string) :=
  tb' <- MereTable.UpdateWidth tb ;; MereTable.lines tb'.

(** A rendering read as exactly a top border, a title row, a separator, a
    data row and a bottom border. *)
Definition five_line_frame (ls : list string) : Prop :=
  exists top titles sep data bottom, ls = [top; titles; sep; data; bottom].

(** A printer that never faults. *)
Definition total_printer (p : MereTable.printer) : Prop :=
  forall u, exists s, p u = OK s.

(** The length of a line that gives every top-level column its width and
    one border character, after the left border. *)
Definition line_width (cols : list Column.t) : Z :=
  1 + fold_right (fun c acc => Column.width c + 1 + acc) 0 cols.



(** *** Longer titles and values *)

(** [grows c c']: the same tree with no title and no value shorter in [c']
    than in [c]. *)
Inductive grows : Column.t -> Column.t -> Prop :=
| grows_intro c c' :
    ssize (Column.title c) <= ssize (Column.title c') ->
    Forall2 (fun v v' => ssize v <= ssize v')
      (Column.values c) (Column.values c') ->
    Forall2 grows (Column.columns c) (Column.columns c') ->
    grows c c'.

(** [wider u u']: [grows], and no width anywhere in the tree smaller in
    [u'] than in [u]. *)
Inductive wider : Column.t -> Column.t -> Prop :=
| wider_intro u u' :
    ssize (Column.title u) <= ssize (Column.title u') ->
    Column.width u <= Column.width u' ->
    Forall2 (fun v v' => ssize v <= ssize v')
      (Column.values u) (Column.values u') ->
    Forall2 wider (Column.columns u) (Column.columns u') ->
    wider u u'.

(** A printer that, on a column at least as wide, prints at least as much. *)
Definition mono_printer (p : MereTable.printer) : Prop :=
  forall u u', wider u u' ->
  forall s, p u = OK s -> exists s', p u' = OK s' /\ ssize s <= ssize s'.

(** Line by line, [ls] is no longer than [ls']. *)
Definition shorter_lines (ls ls' : list string) : Prop :=
  Forall2 (fun l l' => ssize l <= ssize l') ls ls'.

(** *** Further notions *)

(** The titles of the top-level columns, left to right. *)
Definition titles (tb : MereTable.t) : list string :=
  map Column.title (MereTable.columns tb).


(** At every depth the title is no longer than the width, and in a leaf no
    value is. *)
Inductive holds_content : Column.t -> Prop :=
| holds_content_intro u :
    ssize (Column.title u) <= Column.width u ->
    (Column.columns u = [] ->
     Forall (fun v => ssize v <= Column.width u) (Column.values u)) ->
    Forall holds_content (Column.columns u) ->
    holds_content u.


(** *** Example tables *)

(** Columns "A" and "B", and the same with the row ("x", "y"). *)
Definition tableAB : MereTable.t := MereTable.create ["A"; "B"].

Definition tableAB_xy : res MereTable.t :=
  MereTable.AddValues tableAB ["x"; "y"].

(** The table "A", "B" with one row, and the same with a longer value. *)
Definition tableAB_1 : MereTable.t :=
  MereTable.mk [Column.mk "A" 0 [] ["x"]; Column.mk "B" 0 [] ["y"]] 1.

Definition tableAB_2 : MereTable.t :=
  MereTable.mk [Column.mk "A" 0 [] ["xxx"]; Column.mk "B" 0 [] ["y"]] 1.

(** The table with one column of empty title and no row. *)
Definition table_empty_title : MereTable.t := MereTable.create [""].

(** A group "G" over the leaves "a" (one value) and "bb" (one longer
    value). *)
Definition columnG : Column.t :=
  Column.mk "G" 0
    [Column.mk "a" 0 [] ["1"]; Column.mk "bb" 0 [] ["22222"]] [].

(** The table with the plain column "Name" and the group "G" over "a" and
    "b", as the builder makes it. *)
Definition tableG : MereTable.t :=
  MereTable.AddSubcolumn
    (MereTable.AddSubcolumn (MereTable.create ["Name"]) "G" "a") "G" "b".

(* ================================================================= *)
(** ** Arithmetic of the conversions *)

Lemma to_int_id z : int_min <= z <= int_max -> to_int z = z.
Proof.
  unfold int_min, int_max, to_int; intros H.
  rewrite Z.mod_small; lia.
Qed.

Lemma to_int_range z : int_min <= to_int z <= int_max.
Proof.
  unfold int_min, int_max, to_int.
  pose proof (Z.mod_pos_bound (z + 2 ^ 31) (2 ^ 32)); lia.
Qed.

Lemma to_size_id z : 0 <= z <= int_max + 1 -> to_size z = z.
Proof.
  unfold int_max, to_size; intros H.
  rewrite Z.mod_small; lia.
Qed.

Lemma to_int_nat z : 0 <= z <= int_max -> to_int z = z.
Proof. intros H; apply to_int_id; unfold int_min; lia. Qed.

Lemma max_int_id a b :
  0 <= a <= int_max -> 0 <= b <= int_max -> max_int a b = Z.max a b.
Proof. intros Ha Hb; unfold max_int; now rewrite !to_int_nat. Qed.

Lemma ssize_nonneg s : 0 <= ssize s.
Proof. unfold ssize; lia. Qed.

Lemma vsize_nonneg {A} (l : list A) : 0 <= vsize l.
Proof. unfold vsize; lia. Qed.

Lemma vsize_cons {A} (x : A) l : vsize (x :: l) = vsize l + 1.
Proof. unfold vsize; cbn [List.length]; lia. Qed.

Lemma ceil_div_rem a b :
  0 <= a -> 0 < b ->
  ceil_div a b = a / b + (if a mod b =? 0 then 0 else 1).
Proof.
  intros Ha Hb; unfold ceil_div.
  pose proof (Z.div_mod a b ltac:(lia)) as E.
  pose proof (Z.mod_pos_bound a b Hb) as R.
  destruct (Z.eqb_spec (a mod b) 0) as [Z0 | NZ].
  - symmetry; apply Z.div_unique with (r := b - 1); lia.
  - symmetry; apply Z.div_unique with (r := a mod b - 1); lia.
Qed.

Lemma ceil_div_bounds a b :
  0 <= a -> 0 < b -> a <= ceil_div a b * b /\ 0 <= ceil_div a b <= a.
Proof.
  intros Ha Hb; rewrite ceil_div_rem by assumption.
  pose proof (Z.div_mod a b ltac:(lia)) as E.
  pose proof (Z.mod_pos_bound a b Hb) as R.
  assert (0 <= a / b) by (apply Z.div_pos; lia).
  destruct (Z.eqb_spec (a mod b) 0); nia.
Qed.

Lemma ceil_div_mono a a' b :
  0 < b -> a <= a' -> ceil_div a b <= ceil_div a' b.
Proof.
  intros Hb H; unfold ceil_div; apply Z.div_le_mono; lia.
Qed.

Lemma max_list_nonneg l : 0 <= max_list l.
Proof. induction l; simpl; lia. Qed.

Lemma max_list_ge l x : In x l -> x <= max_list l.
Proof.
  induction l as [| y l IH]; simpl; [tauto |].
  intros [-> | H]; [| specialize (IH H)]; lia.
Qed.

Lemma max_list_le l b : 0 <= b -> Forall (fun x => x <= b) l -> max_list l <= b.
Proof. intros Hb; induction 1; simpl; lia. Qed.

(* ================================================================= *)
(** ** The error monad: inversion and traversals *)

Lemma bind_OK {A B} (m : res A) (k : A -> res B) (b : B) :
  bind m k = OK b -> exists a, m = OK a /\ k a = OK b.
Proof. destruct m as [a | f]; simpl; [eauto | discriminate]. Qed.

Ltac inv_bind H :=
  let a := fresh "a" in
  let E := fresh "E" in
  apply bind_OK in H; destruct H as (a & E & H).

Lemma mapM_OK_Forall2 {A B} (f : A -> res B) l r :
  mapM f l = OK r <-> Forall2 (fun x y => f x = OK y) l r.
Proof.
  revert r; induction l as [| x l IH]; intros r; simpl.
  - split; [intros [= <-]; constructor | inversion 1; reflexivity].
  - split.
    + intros H; inv_bind H; inv_bind H; injection H as <-.
      constructor; [assumption | now apply IH].
    + inversion 1 as [| ? y ? r' Hx Hl]; subst.
      apply IH in Hl; rewrite Hx, Hl; reflexivity.
Qed.

Lemma mapM_total {A B} (f : A -> res B) l :
  Forall (fun x => exists y, f x = OK y) l -> exists r, mapM f l = OK r.
Proof.
  induction 1 as [| x l [y Hy] _ [r Hr]]; simpl; [eauto |].
  rewrite Hy, Hr; simpl; eauto.
Qed.

Lemma mapM_ext {A B} (f g : A -> res B) l :
  Forall (fun x => f x = g x) l -> mapM f l = mapM g l.
Proof. induction 1 as [| x l E _ IH]; simpl; [| rewrite E, IH]; reflexivity. Qed.

Lemma mapM_pure {A B} (g : A -> B) l :
  mapM (fun x => OK (g x)) l = OK (map g l).
Proof. induction l as [| x l IH]; simpl; [| rewrite IH]; reflexivity. Qed.

(* ================================================================= *)
(** ** Column.UpdateWidth *)

Lemma update_all_mapM f l m0 :
  Column.update_all f l m0 =
  (us <- mapM f l ;; OK (us, running_max us m0)).
Proof.
  revert m0; induction l as [| x l IH]; intros m0; simpl; [reflexivity |].
  destruct (f x) as [x' | e]; simpl; [| reflexivity].
  rewrite IH; destruct (mapM f l); reflexivity.
Qed.

Lemma group_width_total w m n :
  n <> 0 -> exists r, Column.group_width w m n = OK r.
Proof.
  intros Hn; unfold Column.group_width, size_div, size_mod.
  apply Z.eqb_neq in Hn; rewrite Hn.
  destruct (w >? _); simpl; eauto.
Qed.

(** [UpdateWidth] never faults: the only division is by the number of
    subcolumns of a column that has some. *)
Lemma UpdateWidth_total c : exists c', Column.UpdateWidth c = OK c'.
Proof.
  induction c as [ti w cs vs IH] using Column.ind_forall.
  destruct cs as [| x l]; [simpl; eauto |].
  cbn [Column.UpdateWidth]; rewrite update_all_mapM.
  destruct (mapM_total _ _ IH) as [us ->]; cbn [bind].
  destruct (group_width_total (to_int (ssize ti)) (running_max us 0)
              (vsize (x :: l))) as [[w' m'] ->].
  - rewrite vsize_cons; pose proof (vsize_nonneg l); lia.
  - simpl; eauto.
Qed.

(** What a successful [UpdateWidth] did. *)
Lemma UpdateWidth_leaf ti w vs :
  Column.UpdateWidth (Column.mk ti w [] vs) =
  OK (Column.mk ti
        (fold_left (fun w v => max_int w (ssize v)) vs (to_int (ssize ti)))
        [] vs).
Proof. reflexivity. Qed.

Lemma UpdateWidth_group ti w x l vs c' :
  Column.UpdateWidth (Column.mk ti w (x :: l) vs) = OK c' ->
  exists us w' m',
    mapM Column.UpdateWidth (x :: l) = OK us /\
    Column.group_width (to_int (ssize ti)) (running_max us 0)
      (vsize (x :: l)) = OK (w', m') /\
    c' = Column.mk ti w' (map (Column.set_width m') us) vs.
Proof.
  cbn [Column.UpdateWidth]; rewrite update_all_mapM.
  destruct (mapM Column.UpdateWidth (x :: l)) as [us | e] eqn:Em;
    [cbn [bind] | discriminate].
  destruct (Column.group_width _ _ _) as [[w' m'] | e] eqn:Eg;
    [cbn [bind] | discriminate].
  intros [= <-]; exists us, w', m'; auto.
Qed.

(** *** The width of the specification *)

Lemma spec_width_group ti w x l vs :
  let c := Column.mk ti w (x :: l) vs in
  spec_width c = spec_sub_width c * vsize (x :: l) + (vsize (x :: l) - 1).
Proof. reflexivity. Qed.

Lemma spec_sub_width_bounds c :
  let n := vsize (Column.columns c) in
  1 <= n ->
  max_list (map spec_width (Column.columns c)) <= spec_sub_width c /\
  ssize (Column.title c) <= spec_sub_width c * n /\
  0 <= spec_sub_width c.
Proof.
  intros n Hn; unfold spec_sub_width; fold n.
  pose proof (max_list_nonneg (map spec_width (Column.columns c))) as Hm.
  pose proof (ssize_nonneg (Column.title c)) as Ht.
  destruct (Z.gtb_spec (ssize (Column.title c))
              (max_list (map spec_width (Column.columns c)) * n)) as [G | L].
  - pose proof (ceil_div_bounds _ n Ht ltac:(lia)) as [B1 B2].
    repeat split; [nia | lia | lia].
  - repeat split; lia.
Qed.

Lemma spec_width_nonneg c : 0 <= spec_width c.
Proof.
  destruct c as [ti w [| x l] vs].
  - simpl; pose proof (ssize_nonneg ti); lia.
  - rewrite spec_width_group.
    pose proof (spec_sub_width_bounds (Column.mk ti w (x :: l) vs)) as B.
    cbn [Column.columns Column.title] in B.
    pose proof (vsize_nonneg l); rewrite vsize_cons in *.
    destruct B as (_ & _ & B); [lia | nia].
Qed.

(** A group that fits has subcolumns that fit. *)
Lemma fits_sub c x :
  In x (Column.columns c) ->
  spec_width x <= spec_sub_width c /\ spec_sub_width c <= spec_width c.
Proof.
  destruct c as [ti w [| y l] vs]; [intros [] |].
  cbn [Column.columns]; intros Hin.
  pose proof (spec_sub_width_bounds (Column.mk ti w (y :: l) vs)) as B.
  cbn [Column.columns Column.title] in B.
  rewrite spec_width_group.
  pose proof (vsize_nonneg l); rewrite vsize_cons in *.
  destruct B as (B1 & _ & B3); [lia |].
  split; [| nia].
  apply Z.le_trans with (2 := B1).
  apply max_list_ge, in_map, Hin.
Qed.

Lemma title_le_spec_width c : ssize (Column.title c) <= spec_width c.
Proof.
  destruct c as [ti w [| x l] vs].
  - simpl; lia.
  - rewrite spec_width_group.
    pose proof (spec_sub_width_bounds (Column.mk ti w (x :: l) vs)) as B.
    cbn [Column.columns Column.title] in *.
    pose proof (vsize_nonneg l); rewrite vsize_cons in *.
    destruct B as (_ & B2 & _); lia.
Qed.

(** *** The code computes that width, as long as it fits in [int] *)

Lemma leaf_fold vs w0 :
  0 <= w0 <= int_max ->
  max_list (map ssize vs) <= int_max ->
  fold_left (fun w v => max_int w (ssize v)) vs w0 =
  Z.max w0 (max_list (map ssize vs)).
Proof.
  revert w0; induction vs as [| v vs IH]; intros w0 Hw H; simpl in *.
  - lia.
  - pose proof (ssize_nonneg v); pose proof (max_list_nonneg (map ssize vs)).
    rewrite max_int_id by lia.
    rewrite IH by lia; lia.
Qed.

Lemma running_max_spec us m0 :
  0 <= m0 <= int_max ->
  Forall (fun u => 0 <= Column.width u <= int_max) us ->
  running_max us m0 = Z.max m0 (max_list (map Column.width us)).
Proof.
  intros Hm H; revert m0 Hm; induction H as [| u us Hu _ IH]; intros m0 Hm.
  - simpl; lia.
  - unfold running_max in *; cbn [fold_left map max_list fold_right].
    rewrite max_int_id by lia.
    rewrite IH by lia.
    fold (max_list (map Column.width us)); lia.
Qed.

Lemma group_width_fits w m n :
  0 <= w -> 0 <= m -> 1 <= n ->
  let M := if w >? m * n then ceil_div w n else m in
  M * n + (n - 1) <= int_max ->
  Column.group_width w m n = OK (M * n + (n - 1), M).
Proof.
  intros Hw Hm Hn M HM.
  assert (Hle : m * n <= M * n /\ 0 <= M /\ w <= M * n).
  { subst M; destruct (Z.gtb_spec w (m * n)).
    - pose proof (ceil_div_bounds w n Hw ltac:(lia)); nia.
    - nia. }
  destruct Hle as (H1 & H2 & H3).
  assert (Hmn : 0 <= m * n) by nia.
  unfold Column.group_width.
  rewrite (to_size_id m) by nia.
  rewrite (to_size_id (m * n)), (to_int_nat (m * n)) by lia.
  unfold size_div, size_mod.
  replace (n =? 0) with false by (symmetry; apply Z.eqb_neq; lia).
  subst M; destruct (Z.gtb_spec w (m * n)) as [G | L]; cbn [bind].
  - pose proof (ceil_div_bounds w n Hw ltac:(lia)) as (C1 & C2 & C3).
    assert (Hwm : w <= int_max) by nia.
    rewrite (to_size_id w) by lia.
    assert (0 <= w / n <= w).
    { split; [apply Z.div_pos; lia |].
      apply Z.div_le_upper_bound; nia. }
    rewrite (to_int_nat (w / n)) by lia.
    rewrite ceil_div_rem in * by lia.
    assert (E : (if negb (w mod n =? 0) then to_int (w / n + 1) else w / n) =
                w / n + (if w mod n =? 0 then 0 else 1)).
    { destruct (w mod n =? 0); cbn [negb]; [lia |].
      apply to_int_nat; nia. }
    rewrite E.
    set (q := w / n + (if w mod n =? 0 then 0 else 1)) in *.
    rewrite (to_size_id q) by nia.
    rewrite (to_size_id (q * n)), (to_int_nat (q * n)) by nia.
    rewrite (to_size_id (q * n)) by nia.
    rewrite (to_size_id (q * n + n)) by lia.
    rewrite (to_size_id (q * n + n - 1)), (to_int_nat (q * n + n - 1)) by lia.
    f_equal; f_equal; lia.
  - rewrite (to_size_id (m * n)) by lia.
    rewrite (to_size_id (m * n + n)) by lia.
    rewrite (to_size_id (m * n + n - 1)), (to_int_nat (m * n + n - 1)) by lia.
    f_equal; f_equal; lia.
Qed.

Lemma UpdateWidth_group_eq ti w x l vs us w' m' :
  mapM Column.UpdateWidth (x :: l) = OK us ->
  Column.group_width (to_int (ssize ti)) (running_max us 0)
    (vsize (x :: l)) = OK (w', m') ->
  Column.UpdateWidth (Column.mk ti w (x :: l) vs) =
  OK (Column.mk ti w' (map (Column.set_width m') us) vs).
Proof.
  intros Hm Hg; cbn [Column.UpdateWidth].
  rewrite update_all_mapM, Hm; cbn [bind]; rewrite Hg; reflexivity.
Qed.

Lemma Forall2_map_eq {A B} (f : A -> Z) (g : B -> Z) l r :
  Forall2 (fun x y => g y = f x) l r -> map g r = map f l.
Proof. induction 1; simpl; congruence. Qed.

(** The subcolumns of a group that fits, once each is updated. *)
Lemma update_subcolumns cs :
  Forall (fun x => fits x ->
            exists u, Column.UpdateWidth x = OK u /\
                      Column.width u = spec_width x) cs ->
  Forall fits cs ->
  exists us,
    mapM Column.UpdateWidth cs = OK us /\
    Forall2 (fun x u => Column.UpdateWidth x = OK u) cs us /\
    map Column.width us = map spec_width cs.
Proof.
  induction 1 as [| x l Hx _ IH]; intros Hf.
  - exists []; repeat split; constructor.
  - inversion Hf as [| ? ? Fx Fl]; subst.
    destruct (Hx Fx) as (u & Eu & Wu).
    destruct (IH Fl) as (us & Em & F2 & Ew).
    exists (u :: us); simpl; rewrite Eu, Em; simpl.
    repeat split; [constructor; assumption | congruence].
Qed.

Lemma max_list_fits cs b :
  (forall x, In x cs -> spec_width x <= b) ->
  Forall (fun z => 0 <= z <= b) (map spec_width cs).
Proof.
  intros H; apply Forall_forall; intros z Hz.
  apply in_map_iff in Hz; destruct Hz as (x & <- & Hin).
  split; [apply spec_width_nonneg | auto].
Qed.

Lemma UpdateWidth_fits c :
  fits c ->
  exists us,
    mapM Column.UpdateWidth (Column.columns c) = OK us /\
    map Column.width us = map spec_width (Column.columns c) /\
    Column.UpdateWidth c =
    OK (Column.mk (Column.title c) (spec_width c)
          (map (Column.set_width (spec_sub_width c)) us) (Column.values c)).
Proof.
  induction c as [ti w cs vs IH] using Column.ind_forall.
  unfold fits; intros Hfit.
  pose proof (title_le_spec_width (Column.mk ti w cs vs)) as Ht.
  pose proof (ssize_nonneg ti) as Ht0.
  cbn [Column.title Column.columns Column.values] in *.
  destruct cs as [| x l].
  - exists []; repeat split.
    rewrite UpdateWidth_leaf; do 2 f_equal.
    cbn [spec_width] in *.
    pose proof (max_list_nonneg (map ssize vs)).
    rewrite to_int_nat by lia.
    apply leaf_fold; lia.
  - set (c := Column.mk ti w (x :: l) vs) in *.
    assert (Hsub : forall y, In y (x :: l) -> spec_width y <= spec_sub_width c
                                              /\ spec_sub_width c <= spec_width c)
      by (intros y Hy; apply (fits_sub c y Hy)).
    destruct (update_subcolumns (x :: l)) as (us & Em & F2 & Ew).
    { eapply Forall_impl; [| exact IH].
      intros y Hy Fy; destruct (Hy Fy) as (vs' & _ & _ & Eu).
      eexists; split; [exact Eu | reflexivity]. }
    { apply Forall_forall; intros y Hy; unfold fits.
      specialize (Hsub y Hy); lia. }
    pose proof (spec_sub_width_bounds c) as B.
    cbn [Column.columns Column.title c] in B.
    pose proof (vsize_nonneg l) as Hl.
    destruct B as (B1 & B2 & B3); [rewrite vsize_cons; lia |].
    assert (Hrm : running_max us 0 = max_list (map spec_width (x :: l))).
    { rewrite running_max_spec, Ew.
      - pose proof (max_list_nonneg (map spec_width (x :: l))); lia.
      - unfold int_max; lia.
      - apply Forall_forall; intros u Hu.
        apply (in_map Column.width) in Hu; rewrite Ew in Hu.
        apply in_map_iff in Hu; destruct Hu as (y & <- & Hy).
        pose proof (spec_width_nonneg y); specialize (Hsub y Hy); lia. }
    pose proof (max_list_nonneg (map spec_width (x :: l))) as Hm0.
    pose proof (group_width_fits (ssize ti)
                  (max_list (map spec_width (x :: l))) (vsize (x :: l))
                  Ht0 Hm0 ltac:(rewrite vsize_cons; lia)) as G.
    cbv zeta in G; fold (spec_sub_width c) in G.
    specialize (G Hfit).
    exists us; repeat split; [exact Em | exact Ew |].
    apply UpdateWidth_group_eq; [exact Em |].
    rewrite Hrm, to_int_nat by lia; exact G.
Qed.

(** C1.  The width [UpdateWidth] stores in a column is the one the
    specification describes: for a leaf the largest of the title length and
    the value lengths; for a group of [n] subcolumns [m * n + (n - 1)], with
    [m] the largest of the subcolumns' own widths, or the title length
    divided by [n] and rounded up when the title is longer than [m * n].
    The equality is between mathematical integers and holds as long as that
    width is representable in the [int] field. *)
Theorem C1_UpdateWidth_computes_spec_width (c : Column.t) :
  spec_width c <= int_max ->
  exists c', Column.UpdateWidth c = OK c' /\ Column.width c' = spec_width c.
Proof.
  intros H; destruct (UpdateWidth_fits c H) as (us & _ & _ & E).
  eexists; split; [exact E | reflexivity].
Qed.

Lemma UpdateWidth_title_values c c' :
  Column.UpdateWidth c = OK c' ->
  Column.title c' = Column.title c /\ Column.values c' = Column.values c.
Proof.
  destruct c as [ti w [| x l] vs].
  - rewrite UpdateWidth_leaf; intros [= <-]; auto.
  - intros H; apply UpdateWidth_group in H.
    destruct H as (us & w' & m' & _ & _ & ->); auto.
Qed.

(* ================================================================= *)
(** ** Lengths of the printed pieces *)

Lemma ssize_append s1 s2 : ssize (s1 ++ s2) = ssize s1 + ssize s2.
Proof.
  unfold ssize; induction s1 as [| a s1 IH]; cbn [append String.length];
    [reflexivity | lia].
Qed.

Lemma ssize_String a s : ssize (String a s) = ssize s + 1.
Proof. unfold ssize; cbn [String.length]; lia. Qed.

Lemma ssize_pad fill n : ssize (MereTable.pad fill n) = Z.max 0 n.
Proof.
  unfold MereTable.pad.
  assert (E : forall k, ssize (string_of_list_ascii (repeat fill k)) = Z.of_nat k).
  { induction k as [| k IH]; [reflexivity |].
    cbn [repeat string_of_list_ascii]; rewrite ssize_String, IH; lia. }
  rewrite E; lia.
Qed.

(** A cell is its field width or its content, whichever is longer, and the
    border character. *)
Lemma ssize_print fill border w what :
  ssize (MereTable.print fill border w what) = Z.max w (ssize what) + 1.
Proof.
  unfold MereTable.print.
  rewrite !ssize_append, ssize_pad, ssize_String.
  change (ssize EmptyString) with 0.
  pose proof (ssize_nonneg what); lia.
Qed.

Lemma concat_cons x xs : String.concat "" (x :: xs) = (x ++ String.concat "" xs)%string.
Proof.
  destruct xs as [| y xs]; cbn [String.concat append]; [| reflexivity].
  induction x as [| a x IH]; cbn [append]; congruence.
Qed.

(* ================================================================= *)
(** ** Equal widths of the subcolumns of a group *)

Lemma value_le_spec_width x i v :
  leaf_or_group x ->
  nth_error (Column.values x) i = Some v ->
  ssize v <= spec_width x.
Proof.
  intros [Hl | Hv] Hn.
  - destruct x as [ti w cs vs]; cbn [Column.columns Column.values] in *; subst cs.
    cbn [spec_width]; apply nth_error_In in Hn.
    pose proof (max_list_ge (map ssize vs) (ssize v) (in_map ssize _ _ Hn)); lia.
  - rewrite Hv in Hn; destruct i; discriminate.
Qed.

(** C2.  After [UpdateWidth] on a group every direct subcolumn carries the
    same width [m], the final [maxSubcolumnWidth] of the group, whatever
    width [us] the subcolumn computed for itself.  Hence, when the widths
    fit in [int] and no subcolumn holds both subcolumns and values, the cell
    a subcolumn contributes to a line of the output has a length that
    depends on the line only: [m + 1] for a title or a value, [max m 1 + 1]
    for a filler. *)
Theorem C2_subcolumns_equal_width (g : Column.t) :
  Column.columns g <> [] ->
  exists g' us m,
    Column.UpdateWidth g = OK g' /\
    mapM Column.UpdateWidth (Column.columns g) = OK us /\
    Column.group_width (to_int (ssize (Column.title g))) (running_max us 0)
      (vsize (Column.columns g)) = OK (Column.width g', m) /\
    Column.columns g' = map (Column.set_width m) us /\
    Forall (fun u => Column.width u = m) (Column.columns g') /\
    (fits g -> Forall leaf_or_group (Column.columns g) ->
     forall u, In u (Column.columns g') ->
       (exists s, MereTable.printTitle "|" u = OK s /\ ssize s = m + 1) /\
       (forall fill border, exists s,
           MereTable.printFill fill border u = OK s /\
           ssize s = Z.max m 1 + 1) /\
       (forall i, (i < List.length (Column.values u))%nat -> exists s,
           MereTable.printColumnValue (Z.of_nat i) u = OK s /\
           ssize s = m + 1)).
Proof.
  intros Hg.
  destruct (UpdateWidth_total g) as [g' Eg'].
  destruct g as [ti w [| x l] vs]; [contradiction |].
  pose proof (UpdateWidth_group _ _ _ _ _ _ Eg') as (us & w' & m & Em & Gw & ->).
  cbn [Column.columns Column.title Column.width] in *.
  exists (Column.mk ti w' (map (Column.set_width m) us) vs), us, m.
  assert (Hall : Forall (fun u => Column.width u = m)
                   (map (Column.set_width m) us)).
  { apply Forall_forall; intros u' Hu; apply in_map_iff in Hu.
    destruct Hu as (u0 & <- & _); reflexivity. }
  do 5 (split; [assumption || reflexivity |]).
  intros Hfit Hinv u Hu.
  set (g := Column.mk ti w (x :: l) vs) in *.
  destruct (UpdateWidth_fits g Hfit) as (us' & Em' & Ew & Eg).
  cbn [Column.columns g] in Em'; rewrite Em in Em'; injection Em' as <-.
  apply mapM_OK_Forall2 in Em.
  assert (E : m = spec_sub_width g).
  { rewrite Eg' in Eg; clear - Eg Em.
    remember (spec_sub_width g) as M; remember (spec_width g) as W.
    inversion Em as [| ? u0 ? us0]; subst.
    now injection Eg. }
  clear Eg.
  apply in_map_iff in Hu; destruct Hu as (u0 & <- & Hu0).
  assert (Hx : exists y, In y (x :: l) /\ Column.UpdateWidth y = OK u0).
  { clear - Em Hu0; induction Em as [| a b la lb Hab _ IH];
      [destruct Hu0 |].
    destruct Hu0 as [<- | Hin]; [exists a; simpl; auto |].
    destruct (IH Hin) as (y & Hy & Ey); exists y; simpl; auto. }
  destruct Hx as (y & Hy & Ey).
  apply UpdateWidth_title_values in Ey; destruct Ey as [Et Ev].
  pose proof (fits_sub g y Hy) as [Hym _].
  pose proof (title_le_spec_width y) as Hty.
  assert (Hinvy : leaf_or_group y)
    by (rewrite Forall_forall in Hinv; auto).
  split; [| split].
  - eexists; split; [reflexivity |].
    rewrite ssize_print; cbn [Column.set_width Column.width Column.title].
    rewrite Et; lia.
  - intros fill border; eexists; split; [reflexivity |].
    rewrite ssize_print; cbn [Column.set_width Column.width].
    rewrite ssize_String; change (ssize EmptyString) with 0; lia.
  - intros i Hi; unfold MereTable.printColumnValue.
    cbn [Column.set_width Column.values Column.width] in *.
    rewrite Nat2Z.id.
    destruct (nth_error (Column.values u0) i) as [v |] eqn:En.
    + eexists; split; [reflexivity |].
      rewrite ssize_print.
      rewrite Ev in En; pose proof (value_le_spec_width y i v Hinvy En); lia.
    + apply nth_error_None in En; lia.
Qed.

(* ================================================================= *)
(** ** Rows: Column.ConsumeValues and MereTable.AddValues *)

Lemma combine_append {A B} (a b : list A) (r1 r2 : list B) :
  List.length a = List.length r1 ->
  combine (a ++ b) (r1 ++ r2) = combine a r1 ++ combine b r2.
Proof.
  revert r1; induction a as [| x a IH]; intros [| y r1] H;
    try discriminate H; [reflexivity |].
  injection H as H; simpl; now rewrite IH.
Qed.

Lemma append_row_app a b r1 r2 :
  List.length a = List.length r1 ->
  append_row (a ++ b) (r1 ++ r2) = append_row a r1 ++ append_row b r2.
Proof.
  intros H; unfold append_row.
  rewrite combine_append by assumption; apply map_app.
Qed.

Lemma firstn_plus {A} (n1 n2 : nat) (l : list A) :
  firstn (n1 + n2) l = firstn n1 l ++ firstn n2 (skipn n1 l).
Proof.
  revert l; induction n1 as [| n1 IH]; intros [| x l]; simpl;
    try reflexivity.
  - now rewrite firstn_nil.
  - now rewrite IH.
Qed.

Lemma leaves_group ti w x l vs :
  leaves (Column.mk ti w (x :: l) vs) = flat_map leaves (x :: l).
Proof. reflexivity. Qed.

Section Consume.
Local Open Scope nat_scope.

(** The loop over a list of columns, given the property for each. *)
Lemma consume_all_ok cs :
  Forall (fun c => forall it,
              List.length (leaves c) <= List.length it ->
              exists c',
                Column.ConsumeValues c it =
                OK (c', skipn (List.length (leaves c)) it) /\
                skeleton c' = skeleton c /\
                map Column.values (leaves c') =
                append_row (map Column.values (leaves c))
                  (firstn (List.length (leaves c)) it)) cs ->
  forall it,
    List.length (flat_map leaves cs) <= List.length it ->
    exists cs',
      Column.consume_all Column.ConsumeValues cs it =
      OK (cs', skipn (List.length (flat_map leaves cs)) it) /\
      map skeleton cs' = map skeleton cs /\
      map Column.values (flat_map leaves cs') =
      append_row (map Column.values (flat_map leaves cs))
        (firstn (List.length (flat_map leaves cs)) it).
Proof.
  induction 1 as [| c cs Hc _ IH]; intros it Hlen.
  - exists []; repeat split.
  - cbn [flat_map] in *; rewrite length_app in *.
    destruct (Hc it ltac:(lia)) as (c' & Ec & Sc & Vc).
    destruct (IH (skipn (List.length (leaves c)) it)) as (cs' & Ecs & Scs & Vcs).
    { rewrite length_skipn; lia. }
    exists (c' :: cs'); cbn [Column.consume_all].
    rewrite Ec; cbn [bind]; rewrite Ecs; cbn [bind].
    rewrite skipn_skipn, (Nat.add_comm (List.length (flat_map leaves cs))).
    split; [reflexivity |].
    split; [cbn [map]; congruence |].
    cbn [flat_map]; rewrite !map_app, firstn_plus, Vc, Vcs.
    symmetry; apply append_row_app.
    rewrite length_map, length_firstn; lia.
Qed.

Lemma ConsumeValues_ok c :
  forall it,
    List.length (leaves c) <= List.length it ->
    exists c',
      Column.ConsumeValues c it =
      OK (c', skipn (List.length (leaves c)) it) /\
      skeleton c' = skeleton c /\
      map Column.values (leaves c') =
      append_row (map Column.values (leaves c))
        (firstn (List.length (leaves c)) it).
Proof.
  induction c as [ti w cs vs IH] using Column.ind_forall.
  destruct cs as [| x l]; intros it Hlen.
  - destruct it as [| v it]; [simpl in Hlen; lia |].
    eexists; split; [reflexivity |]; split; reflexivity.
  - rewrite leaves_group in *.
    destruct (consume_all_ok (x :: l) IH it Hlen) as (cs' & E & S & V).
    exists (Column.mk ti w cs' vs); cbn [Column.ConsumeValues].
    rewrite E; cbn [bind]; split; [reflexivity |].
    split; [cbn [skeleton]; now rewrite S |].
    destruct cs' as [| x' l']; [discriminate S |].
    rewrite leaves_group; exact V.
Qed.

(** Too few values: the iterator is dereferenced at its end. *)
Lemma consume_all_short cs :
  Forall (fun c => forall it,
              List.length it < List.length (leaves c) ->
              Column.ConsumeValues c it = Err PastTheEnd) cs ->
  forall it,
    List.length it < List.length (flat_map leaves cs) ->
    Column.consume_all Column.ConsumeValues cs it = Err PastTheEnd.
Proof.
  induction 1 as [| c cs Hc _ IH]; intros it Hlen.
  - simpl in Hlen; lia.
  - cbn [flat_map Column.consume_all] in *; rewrite length_app in Hlen.
    destruct (Nat.lt_ge_cases (List.length it) (List.length (leaves c)))
      as [Hlt | Hge].
    + now rewrite (Hc it Hlt).
    + destruct (ConsumeValues_ok c it Hge) as (c' & -> & _); cbn [bind].
      rewrite IH; [reflexivity |].
      rewrite length_skipn; lia.
Qed.

Lemma ConsumeValues_short c :
  forall it,
    List.length it < List.length (leaves c) ->
    Column.ConsumeValues c it = Err PastTheEnd.
Proof.
  induction c as [ti w cs vs IH] using Column.ind_forall.
  destruct cs as [| x l]; intros it Hlen.
  - destruct it; [reflexivity | simpl in Hlen; lia].
  - rewrite leaves_group in Hlen; cbn [Column.ConsumeValues].
    now rewrite (consume_all_short (x :: l) IH it Hlen).
Qed.
End Consume.

(** Values after the ones a column consumes do not matter to it. *)
Lemma consume_all_frame cs :
  Forall (fun c => forall it c' rest ex,
              Column.ConsumeValues c it = OK (c', rest) ->
              Column.ConsumeValues c (it ++ ex) = OK (c', rest ++ ex)) cs ->
  forall it cs' rest ex,
    Column.consume_all Column.ConsumeValues cs it = OK (cs', rest) ->
    Column.consume_all Column.ConsumeValues cs (it ++ ex) =
    OK (cs', rest ++ ex).
Proof.
  induction 1 as [| c cs Hc _ IH]; intros it cs' rest ex H;
    cbn [Column.consume_all] in *.
  - now injection H as <- <-.
  - inv_bind H; destruct a as [c1 it1].
    inv_bind H; destruct a as [r it2]; injection H as <- <-.
    rewrite (Hc _ _ _ ex E); cbn [bind].
    rewrite (IH _ _ _ ex E0); reflexivity.
Qed.

Lemma ConsumeValues_frame c :
  forall it c' rest ex,
    Column.ConsumeValues c it = OK (c', rest) ->
    Column.ConsumeValues c (it ++ ex) = OK (c', rest ++ ex).
Proof.
  induction c as [ti w cs vs IH] using Column.ind_forall.
  destruct cs as [| x l]; intros it c' rest ex H;
    cbn [Column.ConsumeValues] in *.
  - destruct it as [| v it]; [discriminate H |].
    now injection H as <- <-.
  - inv_bind H; destruct a as [cs' it'].
    injection H as <- <-.
    rewrite (consume_all_frame (x :: l) IH _ _ _ ex E); reflexivity.
Qed.

Lemma append_row_firstn cols row :
  append_row cols (firstn (List.length cols) row) = append_row cols row.
Proof. unfold append_row; now rewrite <- combine_firstn_l. Qed.

Lemma length_append_row cols row :
  (List.length cols <= List.length row)%nat ->
  List.length (append_row cols row) = List.length cols.
Proof.
  intros H; unfold append_row; rewrite length_map, length_combine; lia.
Qed.

Lemma nth_append_row cols row j :
  (j < List.length cols)%nat ->
  (List.length cols <= List.length row)%nat ->
  nth j (append_row cols row) [] = nth j cols [] ++ [nth j row ""].
Proof.
  unfold append_row; revert row j.
  induction cols as [| c cols IH]; intros [| v row] [| j] Hj Hlen;
    simpl in *; try lia; [reflexivity |].
  apply IH; lia.
Qed.

Lemma fold_append_rows rows :
  forall cols,
    Forall (fun r => List.length r = List.length cols) rows ->
    List.length (fold_left append_row rows cols) = List.length cols /\
    forall j, (j < List.length cols)%nat ->
      nth j (fold_left append_row rows cols) [] =
      nth j cols [] ++ map (fun r => nth j r "") rows.
Proof.
  induction rows as [| r rows IH]; intros cols H.
  - split; [reflexivity | intros; symmetry; apply app_nil_r].
  - inversion H as [| ? ? Hr Hrows]; subst.
    assert (L : List.length (append_row cols r) = List.length cols)
      by (apply length_append_row; lia).
    destruct (IH (append_row cols r)) as [IH1 IH2].
    { rewrite L; assumption. }
    cbn [fold_left map]; split; [congruence |].
    intros j Hj; rewrite IH2 by lia.
    rewrite nth_append_row by lia.
    now rewrite <- app_assoc.
Qed.

Lemma AddValues_ok tb vals :
  (List.length (table_leaves tb) <= List.length vals)%nat ->
  exists tb',
    MereTable.AddValues tb vals = OK tb' /\
    MereTable.numRows tb' = to_int (MereTable.numRows tb + 1) /\
    map skeleton (MereTable.columns tb') =
    map skeleton (MereTable.columns tb) /\
    leaf_values tb' = append_row (leaf_values tb) vals.
Proof.
  intros Hlen; unfold table_leaves in Hlen.
  destruct (consume_all_ok (MereTable.columns tb)) with (it := vals)
    as (cs' & E & S & V); [| exact Hlen |].
  { apply Forall_forall; intros c _; apply ConsumeValues_ok. }
  unfold MereTable.AddValues; rewrite E; cbn [bind].
  eexists; split; [reflexivity |].
  cbn [MereTable.numRows MereTable.columns].
  repeat split; [exact S |].
  unfold leaf_values, table_leaves; cbn [MereTable.columns].
  rewrite V, <- (length_map Column.values).
  apply append_row_firstn.
Qed.

Lemma AddRows_ok rows :
  forall tb,
    Forall (fun r => List.length r = List.length (table_leaves tb)) rows ->
    int_min <= MereTable.numRows tb ->
    MereTable.numRows tb + vsize rows <= int_max ->
    exists tb',
      AddRows tb rows = OK tb' /\
      MereTable.numRows tb' = MereTable.numRows tb + vsize rows /\
      map skeleton (MereTable.columns tb') =
      map skeleton (MereTable.columns tb) /\
      leaf_values tb' = fold_left append_row rows (leaf_values tb).
Proof.
  induction rows as [| r rows IH]; intros tb Hrows Hlo Hhi.
  - exists tb; repeat split; unfold vsize; simpl; lia.
  - inversion Hrows as [| ? ? Hr Hrs]; subst.
    rewrite vsize_cons in *; pose proof (vsize_nonneg rows) as Hk.
    destruct (AddValues_ok tb r ltac:(lia)) as (tb1 & E1 & N1 & S1 & V1).
    rewrite to_int_id in N1 by lia.
    assert (L : List.length (table_leaves tb1) = List.length (table_leaves tb)).
    { rewrite <- !(length_map Column.values).
      fold (leaf_values tb1); fold (leaf_values tb); rewrite V1.
      apply length_append_row; unfold leaf_values; rewrite length_map; lia. }
    destruct (IH tb1) as (tb' & E & N & S & V); try lia.
    { rewrite L; assumption. }
    exists tb'; cbn [AddRows fold_left]; rewrite E1; cbn [bind].
    repeat split; try congruence; lia.
Qed.

(** C3.  [AddValues] called with exactly one value per leaf succeeds; it
    hands the values out depth first and left to right, the j-th value
    going to the end of the j-th leaf, leaves the titles and the tree alone
    and adds one to [numRows].  So after [k] such calls the j-th leaf holds
    what it held before followed by the j-th value of each call in call
    order: exactly [k] values when it started empty. *)
Theorem C3_AddValues_fills_leaves_in_order
        (tb : MereTable.t) (rows : list (list string)) :
  Forall (fun r => List.length r = List.length (table_leaves tb)) rows ->
  int_min <= MereTable.numRows tb ->
  MereTable.numRows tb + vsize rows <= int_max ->
  exists tb',
    AddRows tb rows = OK tb' /\
    MereTable.numRows tb' = MereTable.numRows tb + vsize rows /\
    map skeleton (MereTable.columns tb') =
    map skeleton (MereTable.columns tb) /\
    leaf_values tb' = fold_left append_row rows (leaf_values tb) /\
    List.length (leaf_values tb') = List.length (table_leaves tb) /\
    (forall j, (j < List.length (table_leaves tb))%nat ->
       nth j (leaf_values tb') [] =
       nth j (leaf_values tb) [] ++ map (fun r => nth j r "") rows) /\
    (Forall (fun vs => vs = []) (leaf_values tb) ->
     Forall (fun vs => List.length vs = List.length rows) (leaf_values tb')).
Proof.
  intros Hrows Hlo Hhi.
  destruct (AddRows_ok rows tb Hrows Hlo Hhi) as (tb' & E & N & S & V).
  exists tb'; do 4 (split; [assumption |]).
  assert (Hl : List.length (leaf_values tb) = List.length (table_leaves tb))
    by apply length_map.
  destruct (fold_append_rows rows (leaf_values tb)) as [F1 F2].
  { rewrite Hl; assumption. }
  rewrite <- V in F1, F2.
  split; [congruence |].
  split; [intros j Hj; apply F2; lia |].
  intros Hempty; apply Forall_forall; intros vs Hin.
  destruct (In_nth _ _ [] Hin) as (j & Hj & <-).
  rewrite F2 by lia.
  rewrite Forall_forall in Hempty.
  rewrite (Hempty (nth j (leaf_values tb) [])).
  - cbn [app]; apply length_map.
  - apply nth_In; lia.
Qed.

(* ================================================================= *)
(** ** Concrete tables *)

(** C4, as stated, fails: the text rendered for columns A, B and the row
    (x, y) has seven lines, not five. *)
Lemma C4_counterexample :
  exists tb txt,
    tableAB_xy = OK tb /\ text_of tb = OK txt /\
    List.length (split_lines txt) = 7%nat /\
    ~ five_line_frame (split_lines txt).
Proof.
  eexists; eexists; split; [reflexivity |]; split; [reflexivity |].
  split; [reflexivity |].
  intros (l1 & l2 & l3 & l4 & l5 & H); discriminate H.
Qed.

(** C4, amended.  The output for columns A, B and the row (x, y) is seven
    lines: the top border, a filler row (the row of the titles of the
    groups), the title row, a second filler row (the row of the subcolumn
    titles), the [=] separator, the data row with each cell of width 1, and
    the bottom border. *)
Theorem C4_tableAB_rendering :
  exists tb txt,
    tableAB_xy = OK tb /\ text_of tb = OK txt /\
    split_lines txt =
    ["+-+-+"; "| | |"; "|A|B|"; "| | |"; "+=+=+"; "|x|y|"; "+-+-+"] /\
    txt = String.concat ""
            (map (fun l => (l ++ MereTable.newline)%string)
               ["+-+-+"; "| | |"; "|A|B|"; "| | |"; "+=+=+"; "|x|y|"; "+-+-+"]).
Proof.
  eexists; eexists; split; [reflexivity |]; split; [reflexivity |].
  split; reflexivity.
Qed.

(** C5, as stated, fails: with three values for two leaves [AddValues]
    succeeds, fills both leaves and counts the row. *)
Lemma C5_counterexample :
  List.length ["x"; "y"; "z"] <> List.length (table_leaves tableAB) /\
  exists tb,
    MereTable.AddValues tableAB ["x"; "y"; "z"] = OK tb /\
    tb <> tableAB /\
    leaf_values tb = [["x"]; ["y"]] /\
    MereTable.numRows tb = 1.
Proof.
  split; [discriminate |].
  eexists; split; [reflexivity |].
  split; [discriminate | split; reflexivity].
Qed.

(** C5, amended.  [AddValues] does not compare the number of values with
    the number of leaves.  Given at least one value per leaf it succeeds:
    the leaves take the first values in order, the values beyond the last
    leaf are ignored, and [numRows] is incremented.  Given fewer values,
    the iterator is dereferenced at the end of the sequence. *)
Theorem C5_AddValues_does_not_check_the_count
        (tb : MereTable.t) (vals : list string) :
  ((List.length (table_leaves tb) <= List.length vals)%nat ->
   exists tb',
     MereTable.AddValues tb vals = OK tb' /\
     MereTable.AddValues tb (firstn (List.length (table_leaves tb)) vals)
     = OK tb' /\
     leaf_values tb' = append_row (leaf_values tb) vals /\
     MereTable.numRows tb' = to_int (MereTable.numRows tb + 1)) /\
  ((List.length vals < List.length (table_leaves tb))%nat ->
   MereTable.AddValues tb vals = Err PastTheEnd).
Proof.
  split; intros Hlen.
  - destruct (AddValues_ok tb vals Hlen) as (tb' & E & N & _ & V).
    exists tb'; repeat split; try assumption.
    unfold MereTable.AddValues in *.
    destruct (consume_all_ok (MereTable.columns tb)) with (it := vals)
      as (cs & Ec & _ & Vc); [| exact Hlen |].
    { apply Forall_forall; intros c _; apply ConsumeValues_ok. }
    destruct (consume_all_ok (MereTable.columns tb))
      with (it := firstn (List.length (table_leaves tb)) vals)
      as (cs1 & Ec1 & S1 & Vc1).
    { apply Forall_forall; intros c _; apply ConsumeValues_ok. }
    { fold (table_leaves tb); rewrite length_firstn; lia. }
    rewrite Ec in E; cbn [bind] in E; injection E as <-.
    rewrite Ec1; cbn [bind]; do 2 f_equal.
    eapply consume_all_frame
      with (ex := skipn (List.length (table_leaves tb)) vals) in Ec1.
    + rewrite firstn_skipn, Ec in Ec1; now injection Ec1.
    + apply Forall_forall; intros c _; apply ConsumeValues_frame.
  - unfold MereTable.AddValues.
    rewrite consume_all_short; [reflexivity | | exact Hlen].
    apply Forall_forall; intros c _; apply ConsumeValues_short.
Qed.

(* ================================================================= *)
(** ** The table without columns *)

Lemma table_UpdateWidth_total tb : exists tb', MereTable.UpdateWidth tb = OK tb'.
Proof.
  unfold MereTable.UpdateWidth.
  destruct (mapM_total Column.UpdateWidth (MereTable.columns tb)) as [cs ->].
  - apply Forall_forall; intros c _; apply UpdateWidth_total.
  - cbn [bind]; eauto.
Qed.

Lemma table_UpdateWidth_inv tb ub :
  MereTable.UpdateWidth tb = OK ub ->
  mapM Column.UpdateWidth (MereTable.columns tb) = OK (MereTable.columns ub) /\
  MereTable.numRows ub = MereTable.numRows tb.
Proof.
  unfold MereTable.UpdateWidth; intros H; inv_bind H.
  injection H as <-; auto.
Qed.

Lemma rows_no_columns n :
  MereTable.rows [] n =
  OK (repeat ("|" ++ MereTable.newline)%string (Z.to_nat n)).
Proof.
  unfold MereTable.rows; generalize 0%nat.
  induction (Z.to_nat n) as [| k IH]; intros start; [reflexivity |].
  cbn [seq mapM repeat]; rewrite IH; reflexivity.
Qed.

(** C8.  Rendering a table without columns goes through, whatever its row
    count: the text is the left border character of each line alone, that
    is five header lines, one line per counted row and the bottom border
    (six lines for the table just constructed).  Updating the widths of no
    column changes nothing, and on no table at all does the width
    computation divide by zero or fault in any other way. *)
Theorem C8_empty_table_renders :
  (forall n,
      MereTable.ToString (MereTable.mk [] n) =
      OK (MereTable.mk [] n,
          String.concat ""
            (map (fun l => (l ++ MereTable.newline)%string)
               (["+"; "|"; "|"; "|"; "+"] ++ repeat "|" (Z.to_nat n)
                  ++ ["+"])))) /\
  MereTable.ToString MereTable.empty =
  OK (MereTable.empty,
      String.concat ""
        (map (fun l => (l ++ MereTable.newline)%string)
           ["+"; "|"; "|"; "|"; "+"; "+"])) /\
  MereTable.UpdateWidth MereTable.empty = OK MereTable.empty /\
  (forall tb, exists tb', MereTable.UpdateWidth tb = OK tb') /\
  (forall c, exists c', Column.UpdateWidth c = OK c').
Proof.
  split; [| split; [reflexivity | split; [reflexivity |]]].
  - intros n; unfold MereTable.ToString, MereTable.lines.
    cbn [MereTable.UpdateWidth MereTable.columns MereTable.numRows mapM bind].
    rewrite rows_no_columns.
    change (MereTable.header []) with
      (OK (map (fun l => (l ++ MereTable.newline)%string)
             ["+"; "|"; "|"; "|"; "+"])).
    change (MereTable.footer []) with (OK ("+" ++ MereTable.newline)%string).
    cbn [bind]; do 3 f_equal.
    rewrite !map_app; do 2 f_equal.
    induction (Z.to_nat n) as [| k IH]; [reflexivity |].
    cbn [repeat map]; now rewrite IH.
  - split; [apply table_UpdateWidth_total | apply UpdateWidth_total].
Qed.

(* ================================================================= *)
(** ** Adding columns *)

Lemma Find_some cs name :
  (exists c, In c cs /\ Column.title c = name) ->
  exists i, MereTable.Find cs name = Some i.
Proof.
  intros (c & Hin & Ht); induction cs as [| x cs IH]; [destruct Hin |].
  cbn [MereTable.Find].
  destruct (String.eqb_spec (Column.title x) name) as [E | NE]; [eauto |].
  destruct Hin as [-> | Hin]; [contradiction |].
  destruct (IH Hin) as [i ->]; simpl; eauto.
Qed.

Lemma Find_none cs name :
  (forall c, In c cs -> Column.title c <> name) ->
  MereTable.Find cs name = None.
Proof.
  induction cs as [| x cs IH]; intros H; [reflexivity |].
  cbn [MereTable.Find].
  destruct (String.eqb_spec (Column.title x) name) as [E | NE].
  - exfalso; apply (H x); simpl; auto.
  - rewrite IH; [reflexivity |].
    intros c Hc; apply H; simpl; auto.
Qed.

(** C9.  [AddColumn] with the title of an existing top-level column leaves
    the table as it is (and appends a fresh leaf otherwise), while
    [AddColumns] appends one fresh leaf per name, whatever the titles
    already present. *)
Theorem C9_AddColumn_dedups_AddColumns_appends
        (tb : MereTable.t) (name : string) (names : list string) :
  ((exists c, In c (MereTable.columns tb) /\ Column.title c = name) ->
   MereTable.AddColumn tb name = tb) /\
  ((forall c, In c (MereTable.columns tb) -> Column.title c <> name) ->
   MereTable.AddColumn tb name =
   MereTable.mk (MereTable.columns tb ++ [Column.new name])
     (MereTable.numRows tb)) /\
  MereTable.AddColumns tb names =
  MereTable.mk (MereTable.columns tb ++ map Column.new names)
    (MereTable.numRows tb).
Proof.
  unfold MereTable.AddColumn; repeat split.
  - intros H; destruct (Find_some _ _ H) as [i ->]; reflexivity.
  - intros H; rewrite (Find_none _ _ H); reflexivity.
Qed.

(* ================================================================= *)
(** ** Monotonicity of the widths *)

Lemma grows_refl c : grows c c.
Proof.
  induction c as [ti w cs vs IH] using Column.ind_forall.
  constructor; cbn [Column.title Column.values Column.columns]; [lia | |].
  - induction vs; constructor; [lia | assumption].
  - induction IH; constructor; assumption.
Qed.

Lemma max_list_mono l l' : Forall2 Z.le l l' -> max_list l <= max_list l'.
Proof. induction 1; simpl; lia. Qed.

Lemma ceil_div_le a b m : 0 < b -> a <= m * b -> ceil_div a b <= m.
Proof.
  intros Hb H; unfold ceil_div.
  apply Z.lt_succ_r, Z.div_lt_upper_bound; lia.
Qed.

Lemma sub_width_mono tl tl' m m' n :
  0 < n -> 0 <= tl <= tl' -> 0 <= m <= m' ->
  (if tl >? m * n then ceil_div tl n else m) <=
  (if tl' >? m' * n then ceil_div tl' n else m').
Proof.
  intros Hn Ht Hm.
  destruct (Z.gtb_spec tl (m * n)) as [G | L];
    destruct (Z.gtb_spec tl' (m' * n)) as [G' | L'].
  - apply ceil_div_mono; lia.
  - apply ceil_div_le; lia.
  - pose proof (ceil_div_bounds tl' n ltac:(lia) Hn) as (B & _); nia.
  - lia.
Qed.

Lemma Forall2_vsize {A B} (R : A -> B -> Prop) l l' :
  Forall2 R l l' -> vsize l = vsize l'.
Proof. intros H; unfold vsize; now rewrite (Forall2_length H). Qed.

Lemma spec_width_mono c : forall c', grows c c' -> spec_width c <= spec_width c'.
Proof.
  induction c as [ti w cs vs IH] using Column.ind_forall.
  intros [ti' w' cs' vs'] H; inversion H as [? ? Ht Hv Hc]; subst.
  cbn [Column.title Column.values Column.columns] in *.
  destruct Hc as [| x x' l l' Hx Hl].
  - cbn [spec_width].
    assert (max_list (map ssize vs) <= max_list (map ssize vs')).
    { apply max_list_mono; clear - Hv; induction Hv; simpl; auto. }
    lia.
  - rewrite !spec_width_group.
    assert (Hn : vsize (x :: l) = vsize (x' :: l'))
      by (apply (Forall2_vsize grows); constructor; assumption).
    assert (Hm : max_list (map spec_width (x :: l)) <=
                 max_list (map spec_width (x' :: l'))).
    { apply max_list_mono.
      assert (F : Forall2 grows (x :: l) (x' :: l')) by (constructor; auto).
      clear - IH F; induction F; inversion IH; subst; simpl; auto. }
    pose proof (vsize_nonneg l) as Hl0; rewrite <- Hn.
    rewrite vsize_cons in *.
    assert (spec_sub_width (Column.mk ti w (x :: l) vs) <=
            spec_sub_width (Column.mk ti' w' (x' :: l') vs')).
    { unfold spec_sub_width; cbn [Column.columns Column.title].
      rewrite <- Hn, vsize_cons.
      pose proof (max_list_nonneg (map spec_width (x :: l))).
      pose proof (ssize_nonneg ti).
      apply sub_width_mono; lia. }
    nia.
Qed.

Lemma spec_sub_width_mono c c' :
  grows c c' -> spec_sub_width c <= spec_sub_width c'.
Proof.
  intros H; inversion H as [? ? Ht Hv Hc]; subst.
  unfold spec_sub_width.
  rewrite <- (Forall2_vsize _ _ _ Hc).
  assert (Hm : max_list (map spec_width (Column.columns c)) <=
               max_list (map spec_width (Column.columns c'))).
  { apply max_list_mono; clear - Hc.
    induction Hc; simpl; auto using spec_width_mono. }
  pose proof (max_list_nonneg (map spec_width (Column.columns c))).
  pose proof (ssize_nonneg (Column.title c)).
  destruct Hc as [| x x' l l' _ _].
  - change (vsize (@nil Column.t)) with 0; rewrite !Z.mul_0_r.
    unfold ceil_div.
    destruct (Z.gtb_spec (ssize (Column.title c)) 0);
      destruct (Z.gtb_spec (ssize (Column.title c')) 0);
      rewrite ?Z.div_0_r; simpl in *; lia.
  - pose proof (vsize_nonneg l); rewrite vsize_cons.
    apply sub_width_mono; lia.
Qed.

Lemma wider_set_width u u' m m' :
  wider u u' -> m <= m' ->
  wider (Column.set_width m u) (Column.set_width m' u').
Proof.
  intros H Hm; inversion H; subst; constructor; assumption.
Qed.

Lemma UpdateWidth_mono c :
  forall c', grows c c' -> fits c' ->
    exists u u',
      Column.UpdateWidth c = OK u /\ Column.UpdateWidth c' = OK u' /\
      wider u u'.
Proof.
  induction c as [ti w cs vs IH] using Column.ind_forall.
  intros c' Hg Hfit'.
  set (c := Column.mk ti w cs vs) in *.
  assert (Hfit : fits c)
    by (unfold fits in *; pose proof (spec_width_mono c c' Hg); lia).
  destruct (UpdateWidth_fits c Hfit) as (us & Em & _ & E).
  destruct (UpdateWidth_fits c' Hfit') as (us' & Em' & _ & E').
  do 2 eexists; split; [exact E | split; [exact E' |]].
  inversion Hg as [? ? Ht Hv Hc]; subst.
  constructor; cbn [Column.title Column.width Column.values Column.columns];
    try assumption.
  - now apply spec_width_mono.
  - pose proof (spec_sub_width_mono c c' Hg) as Hm.
    assert (Fsub : Forall fits (Column.columns c')).
    { apply Forall_forall; intros y Hy; unfold fits in *.
      pose proof (fits_sub c' y Hy); lia. }
    apply mapM_OK_Forall2 in Em, Em'.
    cbn [Column.columns c] in *.
    revert Hm; generalize (spec_sub_width c), (spec_sub_width c').
    clear - IH Hc Fsub Em Em'; intros m m' Hm.
    revert us us' Em Em'.
    induction Hc as [| x x' l l' Hx Hl IHl]; intros us us' Em Em';
      inversion Em; inversion Em'; subst; [constructor |].
    inversion IH as [| ? ? Px Pl]; inversion Fsub as [| ? ? Fx Fl]; subst.
    cbn [map]; constructor; [| now apply IHl].
    destruct (Px x' Hx Fx) as (u & u' & Eu & Eu' & W).
    apply wider_set_width; [congruence | assumption].
Qed.

(** *** Monotonicity of the printed lines *)

Lemma mapM_mono p cols cols' :
  mono_printer p -> Forall2 wider cols cols' ->
  forall ss, mapM p cols = OK ss ->
  exists ss', mapM p cols' = OK ss' /\
              ssize (String.concat "" ss) <= ssize (String.concat "" ss').
Proof.
  intros Hp; induction 1 as [| u u' l l' Hu _ IH]; intros ss H.
  - injection H as <-; exists []; split; [reflexivity | lia].
  - cbn [mapM] in *; inv_bind H; inv_bind H; injection H as <-.
    destruct (Hp u u' Hu _ E) as (s' & -> & Hs).
    destruct (IH _ E0) as (ss' & -> & Hss).
    eexists; split; [reflexivity |].
    rewrite !concat_cons, !ssize_append; lia.
Qed.

Lemma mono_printTitle border : mono_printer (MereTable.printTitle border).
Proof.
  intros u u' W s [= <-]; inversion W; subst.
  eexists; split; [reflexivity |]; rewrite !ssize_print; lia.
Qed.

Lemma mono_printFill fill border :
  mono_printer (MereTable.printFill fill border).
Proof.
  intros u u' W s [= <-]; inversion W; subst.
  eexists; split; [reflexivity |]; rewrite !ssize_print; lia.
Qed.

Lemma mono_printColumnValue i : mono_printer (MereTable.printColumnValue i).
Proof.
  intros u u' W s; inversion W as [? ? _ Hw Hv _]; subst.
  unfold MereTable.printColumnValue.
  generalize (Z.to_nat i); intros k.
  revert k; induction Hv as [| v v' l l' Hvv _ IH]; intros [| k]; cbn [nth_error];
    try discriminate.
  - intros [= <-]; eexists; split; [reflexivity |].
    rewrite !ssize_print; lia.
  - apply IH.
Qed.

Lemma mono_forEachSubcolumn p :
  mono_printer p -> mono_printer (MereTable.forEachSubcolumn p).
Proof.
  intros Hp u u' W s; inversion W as [? ? _ _ _ Hc]; subst.
  unfold MereTable.forEachSubcolumn; intros H; inv_bind H; injection H as <-.
  destruct (mapM_mono p _ _ Hp Hc _ E) as (ss' & -> & Hss).
  eexists; split; [reflexivity | exact Hss].
Qed.

Lemma mono_makePrintEl p q :
  mono_printer p -> mono_printer q -> mono_printer (MereTable.makePrintEl p q).
Proof.
  intros Hp Hq u u' W s; unfold MereTable.makePrintEl.
  inversion W as [? ? _ _ _ Hc]; subst.
  destruct Hc; [apply Hp | apply Hq]; assumption.
Qed.

Lemma printLine_mono cols cols' leftborder p :
  mono_printer p -> Forall2 wider cols cols' ->
  forall s, MereTable.printLine cols leftborder p = OK s ->
  exists s', MereTable.printLine cols' leftborder p = OK s' /\
             ssize s <= ssize s'.
Proof.
  intros Hp Hc s; unfold MereTable.printLine; intros H.
  inv_bind H; injection H as <-.
  destruct (mapM_mono p _ _ Hp Hc _ E) as (ss' & -> & Hss).
  eexists; split; [reflexivity |].
  cbn [append]; rewrite !ssize_String, !ssize_append; lia.
Qed.

Create HintDb printers.
#[local] Hint Resolve mono_printTitle mono_printFill mono_printColumnValue
  mono_forEachSubcolumn mono_makePrintEl : printers.

Lemma header_mono cols cols' :
  Forall2 wider cols cols' ->
  forall ls, MereTable.header cols = OK ls ->
  exists ls', MereTable.header cols' = OK ls' /\ shorter_lines ls ls'.
Proof.
  intros Hc ls; unfold MereTable.header; intros H.
  do 5 (let E := fresh "E" in
        apply bind_OK in H; destruct H as (? & E & H);
        eapply printLine_mono in E; [| | exact Hc];
        [destruct E as (? & -> & ?) | auto 6 with printers]).
  injection H as <-; cbn [bind].
  eexists; split; [reflexivity |].
  repeat constructor; assumption.
Qed.

Lemma rows_mono cols cols' n :
  Forall2 wider cols cols' ->
  forall ls, MereTable.rows cols n = OK ls ->
  exists ls', MereTable.rows cols' n = OK ls' /\ shorter_lines ls ls'.
Proof.
  intros Hc; unfold MereTable.rows.
  induction (seq 0 (Z.to_nat n)) as [| i l IH]; intros ls H; cbn [mapM] in *.
  - injection H as <-; exists []; split; constructor.
  - inv_bind H; inv_bind H; injection H as <-.
    eapply printLine_mono in E; [| | exact Hc];
      [| unfold MereTable.printValue; auto 6 with printers].
    destruct E as (s' & -> & Hs); destruct (IH _ E0) as (ls' & -> & Hls).
    eexists; split; [reflexivity | constructor; assumption].
Qed.

Lemma lines_mono tb tb' :
  Forall2 wider (MereTable.columns tb) (MereTable.columns tb') ->
  MereTable.numRows tb = MereTable.numRows tb' ->
  forall ls, MereTable.lines tb = OK ls ->
  exists ls', MereTable.lines tb' = OK ls' /\ shorter_lines ls ls'.
Proof.
  intros Hc Hn ls; unfold MereTable.lines, MereTable.footer; intros H.
  inv_bind H; inv_bind H; inv_bind H; injection H as <-.
  destruct (header_mono _ _ Hc _ E) as (h' & -> & Hh).
  rewrite Hn in E0; destruct (rows_mono _ _ _ Hc _ E0) as (r' & -> & Hr).
  eapply printLine_mono in E1; [| | exact Hc]; [| auto 6 with printers].
  destruct E1 as (f' & -> & Hf).
  eexists; split; [reflexivity |].
  apply Forall2_app; [assumption |].
  apply Forall2_app; [assumption | repeat constructor; assumption].
Qed.

(** C6.  Take two tables with the same tree and the same number of rows,
    where no title and no value of the second is shorter than in the first
    (for instance, one value or one title made longer), the widths of the
    second fitting in [int].  Then after the width computation no column
    of the second, at any depth, is narrower than the same column of the
    first, and if the first table renders, so does the second and none of
    its lines is shorter than the same line of the first. *)
Theorem C6_width_monotone (tb tb' : MereTable.t) :
  Forall2 grows (MereTable.columns tb) (MereTable.columns tb') ->
  MereTable.numRows tb = MereTable.numRows tb' ->
  Forall fits (MereTable.columns tb') ->
  exists ub ub',
    MereTable.UpdateWidth tb = OK ub /\
    MereTable.UpdateWidth tb' = OK ub' /\
    Forall2 wider (MereTable.columns ub) (MereTable.columns ub') /\
    forall ls, rendered_lines tb = OK ls ->
      exists ls', rendered_lines tb' = OK ls' /\ shorter_lines ls ls'.
Proof.
  intros Hg Hn Hfit.
  destruct (table_UpdateWidth_total tb) as [ub E].
  destruct (table_UpdateWidth_total tb') as [ub' E'].
  exists ub, ub'; split; [assumption | split; [assumption |]].
  assert (W : Forall2 wider (MereTable.columns ub) (MereTable.columns ub')).
  { apply table_UpdateWidth_inv in E, E'.
    destruct E as [E _], E' as [E' _].
    apply mapM_OK_Forall2 in E, E'.
    revert E E' Hfit.
    generalize (MereTable.columns ub), (MereTable.columns ub').
    induction Hg as [| c c' l l' Hc _ IH]; intros us us' U U' Hfit;
      inversion U; inversion U'; inversion Hfit; subst; constructor.
    - destruct (UpdateWidth_mono c c' Hc) as (u & u' & Eu & Eu' & Wu);
        [assumption | congruence].
    - apply IH; assumption. }
  split; [exact W |].
  unfold rendered_lines; rewrite E, E'; cbn [bind].
  apply lines_mono; [exact W |].
  apply table_UpdateWidth_inv in E, E'; destruct E as [_ ->], E' as [_ ->].
  exact Hn.
Qed.

(* ================================================================= *)
(** ** Clear *)

Lemma mapM_map {A B C} (f : B -> res C) (g : A -> B) l :
  mapM f (map g l) = mapM (fun x => f (g x)) l.
Proof. induction l as [| x l IH]; simpl; [| rewrite IH]; reflexivity. Qed.

Lemma map_ext_Forall {A B} (f g : A -> B) l :
  Forall (fun x => f x = g x) l -> map f l = map g l.
Proof. induction 1; simpl; congruence. Qed.

Lemma vsize_map {A B} (f : A -> B) l : vsize (map f l) = vsize l.
Proof. unfold vsize; now rewrite length_map. Qed.

(** [UpdateWidth] does not read the widths it finds. *)
Lemma UpdateWidth_strip c : Column.UpdateWidth (strip c) = Column.UpdateWidth c.
Proof.
  induction c as [ti w cs vs IH] using Column.ind_forall.
  destruct cs as [| x l]; [reflexivity |].
  change (strip (Column.mk ti w (x :: l) vs))
    with (Column.mk ti 0 (strip x :: map strip l) vs).
  cbn [Column.UpdateWidth].
  rewrite !update_all_mapM.
  change (strip x :: map strip l) with (map strip (x :: l)).
  rewrite mapM_map, (mapM_ext _ Column.UpdateWidth _ IH), vsize_map.
  reflexivity.
Qed.

(** [UpdateWidth] writes nothing but widths. *)
Lemma strip_UpdateWidth c : forall u, Column.UpdateWidth c = OK u -> strip u = strip c.
Proof.
  induction c as [ti w cs vs IH] using Column.ind_forall; intros u H.
  destruct cs as [| x l].
  - rewrite UpdateWidth_leaf in H; now injection H as <-.
  - apply UpdateWidth_group in H; destruct H as (us & w' & m' & Em & _ & ->).
    cbn [strip]; f_equal.
    apply mapM_OK_Forall2 in Em.
    rewrite map_map.
    change (strip x :: map strip l) with (map strip (x :: l)).
    revert IH; induction Em as [| a b la lb Hab _ IHl]; intros IH;
      [reflexivity |].
    inversion IH as [| ? ? Pa Pl]; subst; cbn [map]; f_equal; [| auto].
    rewrite <- (Pa b Hab); now destruct b.
Qed.

(** Updating the widths twice is updating them once. *)
Lemma UpdateWidth_idem c u :
  Column.UpdateWidth c = OK u -> Column.UpdateWidth u = OK u.
Proof.
  intros H; rewrite <- UpdateWidth_strip, (strip_UpdateWidth c u H).
  now rewrite UpdateWidth_strip.
Qed.

Lemma skeleton_strip c : skeleton (strip c) = skeleton c.
Proof.
  induction c as [ti w cs vs IH] using Column.ind_forall.
  cbn [strip skeleton]; f_equal.
  rewrite map_map; now apply map_ext_Forall.
Qed.

Lemma no_values_children ti w cs vs :
  no_values (Column.mk ti w cs vs) <-> vs = [] /\ Forall no_values cs.
Proof.
  unfold no_values; cbn [nodes]; rewrite Forall_cons_iff, Forall_flat_map.
  reflexivity.
Qed.

Lemma no_values_iff c : no_values c <-> strip c = skeleton c.
Proof.
  induction c as [ti w cs vs IH] using Column.ind_forall.
  rewrite no_values_children; cbn [strip skeleton]; split.
  - intros [-> H]; f_equal; apply map_ext_Forall.
    rewrite Forall_forall in *; intros x Hx; apply IH; auto.
  - intros [= E ->]; split; [reflexivity |].
    induction IH as [| x l Hx _ IHl]; [constructor |].
    injection E as E1 E2; constructor; [apply Hx, E1 | apply IHl, E2].
Qed.

Lemma skeleton_Clear c : skeleton (Column.Clear c) = skeleton c.
Proof.
  induction c as [ti w cs vs IH] using Column.ind_forall.
  cbn [Column.Clear skeleton]; f_equal.
  rewrite map_map; now apply map_ext_Forall.
Qed.

Lemma no_values_Clear c : no_values (Column.Clear c).
Proof.
  induction c as [ti w cs vs IH] using Column.ind_forall.
  cbn [Column.Clear]; apply no_values_children; split; [reflexivity |].
  apply Forall_map; exact IH.
Qed.

(** Without values the widths depend on the titles and the tree alone. *)
Lemma UpdateWidth_skeleton c :
  no_values c -> Column.UpdateWidth c = Column.UpdateWidth (skeleton c).
Proof.
  intros H; apply no_values_iff in H.
  now rewrite <- UpdateWidth_strip, H.
Qed.

(** *** The header and the footer always print *)

Lemma total_printTitle border : total_printer (MereTable.printTitle border).
Proof. intros u; eexists; reflexivity. Qed.

Lemma total_printFill fill border :
  total_printer (MereTable.printFill fill border).
Proof. intros u; eexists; reflexivity. Qed.

Lemma total_forEachSubcolumn p :
  total_printer p -> total_printer (MereTable.forEachSubcolumn p).
Proof.
  intros Hp u; unfold MereTable.forEachSubcolumn.
  destruct (mapM_total p (Column.columns u)) as [ss ->];
    [apply Forall_forall; intros; apply Hp | cbn [bind]; eauto].
Qed.

Lemma total_makePrintEl p q :
  total_printer p -> total_printer q ->
  total_printer (MereTable.makePrintEl p q).
Proof.
  intros Hp Hq u; unfold MereTable.makePrintEl.
  destruct (Column.columns u); [apply Hp | apply Hq].
Qed.

#[local] Hint Resolve total_printTitle total_printFill
  total_forEachSubcolumn total_makePrintEl : printers.

Lemma printLine_total cols leftborder p :
  total_printer p -> exists s, MereTable.printLine cols leftborder p = OK s.
Proof.
  intros Hp; unfold MereTable.printLine.
  destruct (mapM_total p cols) as [ss ->];
    [apply Forall_forall; intros; apply Hp | cbn [bind]; eauto].
Qed.

Lemma header_total cols : exists h, MereTable.header cols = OK h.
Proof.
  unfold MereTable.header.
  do 5 (match goal with
        | |- context [MereTable.printLine cols ?b ?p] =>
            destruct (printLine_total cols b p) as [? ->];
            [auto 6 with printers | cbn [bind]]
        end).
  eauto.
Qed.

Lemma footer_total cols : exists f, MereTable.footer cols = OK f.
Proof. apply printLine_total; auto 6 with printers. Qed.

(** Tables with the same titles and tree and no value get the same
    widths. *)
Lemma mapM_UpdateWidth_skeleton cs cs0 :
  map skeleton cs0 = map skeleton cs ->
  Forall no_values cs0 -> Forall no_values cs ->
  mapM Column.UpdateWidth cs0 = mapM Column.UpdateWidth cs.
Proof.
  intros Hs H0 H.
  rewrite (mapM_ext Column.UpdateWidth
             (fun c => Column.UpdateWidth (skeleton c)) cs0),
          (mapM_ext Column.UpdateWidth
             (fun c => Column.UpdateWidth (skeleton c)) cs).
  - now rewrite <- !(mapM_map Column.UpdateWidth skeleton), Hs.
  - eapply Forall_impl; [| exact H]; apply UpdateWidth_skeleton.
  - eapply Forall_impl; [| exact H0]; apply UpdateWidth_skeleton.
Qed.

Lemma mapM_UpdateWidth_idem cs us :
  mapM Column.UpdateWidth cs = OK us -> mapM Column.UpdateWidth us = OK us.
Proof.
  rewrite !mapM_OK_Forall2; induction 1; constructor;
    eauto using UpdateWidth_idem.
Qed.

(** C7.  [Clear] succeeds; afterwards [numRows] is 0, no column at any
    depth holds a value and the titles and the tree are what they were.
    Rendering the cleared table gives the five header lines and the bottom
    border with no data row in between, and it is the very text (and the
    very widths) that rendering gives for any table with the same titles
    and tree that holds no value and counts no row, such as the table
    before its rows were added. *)
Theorem C7_Clear_keeps_structure (tb : MereTable.t) :
  exists tbc,
    MereTable.Clear tb = OK tbc /\
    MereTable.numRows tbc = 0 /\
    Forall no_values (MereTable.columns tbc) /\
    map skeleton (MereTable.columns tbc) =
    map skeleton (MereTable.columns tb) /\
    (exists h f,
        MereTable.header (MereTable.columns tbc) = OK h /\
        MereTable.footer (MereTable.columns tbc) = OK f /\
        MereTable.ToString tbc = OK (tbc, String.concat "" (h ++ [f]))) /\
    (forall tb0,
        map skeleton (MereTable.columns tb0) =
        map skeleton (MereTable.columns tb) ->
        Forall no_values (MereTable.columns tb0) ->
        MereTable.numRows tb0 = 0 ->
        MereTable.ToString tb0 = MereTable.ToString tbc).
Proof.
  destruct (table_UpdateWidth_total
              (MereTable.mk (map Column.Clear (MereTable.columns tb)) 0))
    as [tbc E].
  exists tbc; split; [exact E |].
  pose proof (table_UpdateWidth_inv _ _ E) as [Em En].
  cbn [MereTable.columns MereTable.numRows] in Em, En.
  destruct tbc as [us n]; cbn [MereTable.columns MereTable.numRows] in *.
  subst n.
  assert (Hcl : Forall no_values (map Column.Clear (MereTable.columns tb)))
    by (apply Forall_map, Forall_forall; intros; apply no_values_Clear).
  assert (Hsk : map skeleton us = map skeleton (MereTable.columns tb)).
  { apply mapM_OK_Forall2 in Em; clear - Em.
    remember (map Column.Clear (MereTable.columns tb)) as cl eqn:Ecl.
    revert Ecl; generalize (MereTable.columns tb).
    induction Em as [| a b la lb Hab _ IH]; intros [| c cs] Ecl;
      try discriminate Ecl; [reflexivity |].
    injection Ecl as -> ->; cbn [map]; f_equal; [| now apply IH].
    rewrite <- skeleton_strip, (strip_UpdateWidth _ _ Hab), skeleton_strip.
    apply skeleton_Clear. }
  assert (Hnv : Forall no_values us).
  { apply mapM_OK_Forall2 in Em; clear - Em Hcl.
    induction Em as [| a b la lb Hab _ IH]; inversion Hcl; subst;
      constructor; [| auto].
    apply no_values_iff.
    rewrite (strip_UpdateWidth _ _ Hab).
    rewrite <- skeleton_strip, (strip_UpdateWidth _ _ Hab), skeleton_strip.
    now apply no_values_iff. }
  assert (Hidem : MereTable.UpdateWidth (MereTable.mk us 0) =
                  OK (MereTable.mk us 0)).
  { unfold MereTable.UpdateWidth; cbn [MereTable.columns MereTable.numRows].
    now rewrite (mapM_UpdateWidth_idem _ _ Em). }
  destruct (header_total us) as [h Eh].
  destruct (footer_total us) as [f Ef].
  assert (Els : MereTable.lines (MereTable.mk us 0) = OK (h ++ [f])).
  { unfold MereTable.lines; cbn [MereTable.columns MereTable.numRows].
    rewrite Eh, Ef; reflexivity. }
  assert (Es : MereTable.ToString (MereTable.mk us 0) =
               OK (MereTable.mk us 0, String.concat "" (h ++ [f]))).
  { unfold MereTable.ToString; rewrite Hidem; cbn [bind].
    rewrite Els; reflexivity. }
  do 3 (split; [assumption || reflexivity |]).
  split; [exists h, f; auto |].
  intros [cs0 n0] Hs0 Hnv0 Hn0; cbn [MereTable.columns MereTable.numRows] in *.
  subst n0; rewrite Es.
  unfold MereTable.ToString, MereTable.UpdateWidth.
  cbn [MereTable.columns MereTable.numRows].
  rewrite (mapM_UpdateWidth_skeleton
             (map Column.Clear (MereTable.columns tb)) cs0), Em;
    [cbn [bind]; rewrite Els; reflexivity | | assumption | assumption].
  rewrite Hs0, map_map; symmetry.
  apply map_ext_Forall, Forall_forall; intros; apply skeleton_Clear.
Qed.

(* ================================================================= *)
(** ** Alignment of the rendered lines *)










Lemma values_le_spec_width x v :
  leaf_or_group x -> In v (Column.values x) -> ssize v <= spec_width x.
Proof.
  intros Hx Hv; apply In_nth_error in Hv; destruct Hv as [i Hi].
  eapply value_le_spec_width; eassumption.
Qed.




(** C10, at the column of empty title: the column is 0 wide, so a line
    should be [1 + (0 + 1) = 2] characters long; the title line is, but the
    borders and the filler rows, which print one fill character in the
    field of width 0, are 3 characters long. *)
Theorem C10_empty_title_misaligned :
  exists ub ls,
    MereTable.UpdateWidth table_empty_title = OK ub /\
    map Column.width (MereTable.columns ub) = [0] /\
    line_width (MereTable.columns ub) = 2 /\
    MereTable.lines ub = OK ls /\
    ls = map (fun l => (l ++ MereTable.newline)%string)
           ["+-+"; "| |"; "||"; "| |"; "+=+"; "+-+"] /\
    map (fun l => ssize l - 1) ls = [3; 3; 2; 3; 3; 3] /\
    ~ Forall (fun l => ssize l - 1 = line_width (MereTable.columns ub)) ls /\
    (exists l l', In l ls /\ In l' ls /\ ssize l <> ssize l').
Proof.
  do 2 eexists; split; [reflexivity |].
  do 5 (split; [reflexivity |]); split.
  - intros H; inversion H as [| ? ? H1 _]; discriminate H1.
  - do 2 eexists; split; [left; reflexivity |].
    split; [right; right; left; reflexivity | discriminate].
Qed.

(* ================================================================= *)
(** ** Worked instances *)

(** C1 at the group [columnG], 11 wide. *)
Lemma C1_witness :
  spec_width columnG <= int_max /\
  exists c', Column.UpdateWidth columnG = OK c' /\
             Column.width c' = spec_width columnG.
Proof.
  assert (H : spec_width columnG <= int_max)
    by (apply Z.leb_le; reflexivity).
  split; [exact H | exact (C1_UpdateWidth_computes_spec_width columnG H)].
Defined.

(** C2 at the group [columnG]: both subcolumns end 5 wide. *)
Lemma C2_witness :
  Column.columns columnG <> [] /\ fits columnG /\
  Forall leaf_or_group (Column.columns columnG) /\
  exists g' m,
    Column.UpdateWidth columnG = OK g' /\
    Forall (fun u => Column.width u = m) (Column.columns g') /\
    forall u, In u (Column.columns g') ->
      exists s, MereTable.printTitle "|" u = OK s /\ ssize s = m + 1.
Proof.
  assert (H1 : Column.columns columnG <> []) by discriminate.
  assert (H2 : fits columnG) by (apply Z.leb_le; reflexivity).
  assert (H3 : Forall leaf_or_group (Column.columns columnG))
    by (repeat constructor).
  do 3 (split; [assumption |]).
  destruct (C2_subcolumns_equal_width columnG H1)
    as (g' & us & m & E & _ & _ & _ & Hall & Hcells).
  exists g', m; split; [exact E | split; [exact Hall |]].
  intros u Hu; exact (proj1 (Hcells H2 H3 u Hu)).
Defined.

(** C3 at [tableG] with two rows of three values. *)
Lemma C3_witness :
  exists tb',
    AddRows tableG [["x"; "1"; "2"]; ["y"; "3"; "4"]] = OK tb' /\
    MereTable.numRows tb' = 2 /\
    leaf_values tb' = [["x"; "y"]; ["1"; "3"]; ["2"; "4"]].
Proof.
  destruct (C3_AddValues_fills_leaves_in_order tableG
              [["x"; "1"; "2"]; ["y"; "3"; "4"]])
    as (tb' & E & N & _ & V & _).
  - repeat constructor.
  - apply Z.leb_le; reflexivity.
  - apply Z.leb_le; reflexivity.
  - exists tb'; split; [exact E | split; [exact N | exact V]].
Defined.

(** C5 at [tableAB]: three values for two leaves, and one value. *)
Lemma C5_witness :
  (exists tb',
      MereTable.AddValues tableAB ["x"; "y"; "z"] = OK tb' /\
      MereTable.AddValues tableAB ["x"; "y"] = OK tb') /\
  MereTable.AddValues tableAB ["x"] = Err PastTheEnd.
Proof.
  split.
  - destruct (proj1 (C5_AddValues_does_not_check_the_count tableAB
                       ["x"; "y"; "z"]))
      as (tb' & E & E' & _).
    + apply Nat.leb_le; reflexivity.
    + exists tb'; split; [exact E | exact E'].
  - apply (proj2 (C5_AddValues_does_not_check_the_count tableAB ["x"])).
    apply Nat.ltb_lt; reflexivity.
Defined.

(** C6 at [tableAB_1] and [tableAB_2], which differ by one longer value. *)
Lemma C6_witness :
  exists ub ub' ls ls',
    MereTable.UpdateWidth tableAB_1 = OK ub /\
    MereTable.UpdateWidth tableAB_2 = OK ub' /\
    Forall2 wider (MereTable.columns ub) (MereTable.columns ub') /\
    rendered_lines tableAB_1 = OK ls /\
    rendered_lines tableAB_2 = OK ls' /\
    shorter_lines ls ls'.
Proof.
  destruct (C6_width_monotone tableAB_1 tableAB_2)
    as (ub & ub' & E & E' & W & L).
  - constructor; [| constructor; [| constructor]];
      (constructor;
       [apply Z.leb_le; reflexivity
       | constructor; [apply Z.leb_le; reflexivity | constructor]
       | constructor]).
  - reflexivity.
  - repeat constructor; apply Z.leb_le; reflexivity.
  - destruct (table_UpdateWidth_total tableAB_1) as [ub1 E1].
    destruct (MereTable.lines ub1) as [ls | e] eqn:El.
    + destruct (L ls) as (ls' & El' & Hs).
      { unfold rendered_lines; rewrite E1; exact El. }
      exists ub, ub', ls, ls'; repeat split; try assumption.
      unfold rendered_lines; rewrite E1; exact El.
    + exfalso; revert E1 El; vm_compute.
      intros [= <-]; discriminate.
Defined.

(** C7 at the table A, B with one row, against the same table before the row. *)
Lemma C7_witness :
  exists tb tbc,
    tableAB_xy = OK tb /\
    MereTable.Clear tb = OK tbc /\
    MereTable.numRows tbc = 0 /\
    MereTable.ToString tableAB = MereTable.ToString tbc.
Proof.
  exists tableAB_1.
  destruct (C7_Clear_keeps_structure tableAB_1)
    as (tbc & E & N & _ & _ & _ & Hsame).
  exists tbc; split; [reflexivity |].
  split; [exact E | split; [exact N |]].
  apply Hsame; [reflexivity | | reflexivity].
  repeat constructor.
Defined.

(** C9 at [tableAB] and the title of its first column. *)
Lemma C9_witness :
  MereTable.AddColumn tableAB "A" = tableAB /\
  MereTable.columns (MereTable.AddColumns tableAB ["A"]) =
  MereTable.columns tableAB ++ [Column.new "A"].
Proof.
  destruct (C9_AddColumn_dedups_AddColumns_appends tableAB "A" ["A"])
    as (H1 & _ & H3).
  split.
  - apply H1; exists (Column.new "A"); split; [left | ]; reflexivity.
  - rewrite H3; reflexivity.
Defined.

(* ================================================================= *)
(** ** The tables the public interface builds *)

Lemma skeleton_leaf x y :
  skeleton x = skeleton y -> Column.columns x = [] -> Column.columns y = [].
Proof.
  destruct x as [? ? cx ?], y as [? ? cy ?]; cbn [skeleton Column.columns].
  intros [= _ E] ->; destruct cy; [reflexivity | discriminate E].
Qed.

Lemma flat_skeleton c c' : skeleton c = skeleton c' -> flat c -> flat c'.
Proof.
  destruct c as [? ? cs ?], c' as [? ? cs' ?]; unfold flat.
  cbn [skeleton Column.columns]; intros [= _ E] H.
  revert cs' E; induction H as [| x l Hx _ IH]; intros [| y l'] E;
    try discriminate E; constructor.
  - injection E as E _; exact (skeleton_leaf x y E Hx).
  - injection E as _ E; exact (IH l' E).
Qed.

Lemma Forall_flat_skeleton cs cs' :
  map skeleton cs = map skeleton cs' -> Forall flat cs -> Forall flat cs'.
Proof.
  intros E H; revert cs' E; induction H as [| c l Hc _ IH]; intros [| c' l'] E;
    try discriminate E; constructor.
  - injection E as E _; exact (flat_skeleton c c' E Hc).
  - injection E as _ E; exact (IH l' E).
Qed.

Lemma skeleton_UpdateWidth c u :
  Column.UpdateWidth c = OK u -> skeleton c = skeleton u.
Proof.
  intros H; rewrite <- (skeleton_strip c), <- (skeleton_strip u).
  now rewrite (strip_UpdateWidth c u H).
Qed.

Lemma table_UpdateWidth_skeleton tb ub :
  MereTable.UpdateWidth tb = OK ub ->
  map skeleton (MereTable.columns tb) = map skeleton (MereTable.columns ub).
Proof.
  intros H; apply table_UpdateWidth_inv in H; destruct H as [H _].
  apply mapM_OK_Forall2 in H.
  induction H; cbn [map]; f_equal; auto using skeleton_UpdateWidth.
Qed.

Lemma flat_add_sub_at cs i sub :
  Forall flat cs -> Forall flat (MereTable.add_sub_at cs i sub).
Proof.
  intros H; revert i; induction H as [| c l Hc Hl IH]; intros [| i];
    cbn [MereTable.add_sub_at]; constructor; auto.
  unfold flat, Column.AddColumn; cbn [Column.columns].
  apply Forall_app; split; [exact Hc | repeat constructor].
Qed.

(** Whatever the calls, a table is at most two levels deep: columns and
    their subcolumns. *)
Lemma reachable_flat tb : reachable tb -> Forall flat (MereTable.columns tb).
Proof.
  induction 1 as [| tb names _ IH | tb name _ IH | tb name sub _ IH
                 | tb vals tb' _ IH E | tb tb' _ IH E | tb tb' txt _ IH E].
  - constructor.
  - cbn [MereTable.AddColumns MereTable.columns].
    apply Forall_app; split; [exact IH |].
    apply Forall_map, Forall_forall; intros; constructor.
  - unfold MereTable.AddColumn.
    destruct (MereTable.Find _ _); [exact IH |].
    cbn [MereTable.columns]; apply Forall_app; split; [exact IH |].
    repeat constructor.
  - unfold MereTable.AddSubcolumn.
    destruct (MereTable.Find _ _) as [i |]; cbn [MereTable.columns].
    + now apply flat_add_sub_at.
    + apply Forall_app; split; [exact IH | repeat constructor].
  - destruct (Nat.lt_ge_cases (List.length vals) (List.length (table_leaves tb)))
      as [Hlt | Hge].
    + unfold MereTable.AddValues in E; rewrite consume_all_short in E;
        [discriminate E | | exact Hlt].
      apply Forall_forall; intros c _; apply ConsumeValues_short.
    + destruct (AddValues_ok tb vals Hge) as (tb1 & E1 & _ & S & _).
      rewrite E in E1; injection E1 as <-.
      eapply Forall_flat_skeleton; [symmetry; exact S | exact IH].
  - unfold MereTable.Clear in E.
    apply table_UpdateWidth_skeleton in E; cbn [MereTable.columns] in E.
    eapply Forall_flat_skeleton; [exact E |].
    apply Forall_map; eapply Forall_impl; [| exact IH].
    intros c Hc; eapply flat_skeleton; [| exact Hc].
    symmetry; apply skeleton_Clear.
  - unfold MereTable.ToString in E.
    apply bind_OK in E; destruct E as (ub & Eu & E).
    apply bind_OK in E; destruct E as (ls & _ & E); injection E as <- _.
    eapply Forall_flat_skeleton;
      [apply table_UpdateWidth_skeleton; exact Eu | exact IH].
Qed.

(** So the subcolumns of a reachable table are leaves, as the invariant of
    the data model asks of them. *)
Lemma reachable_subcolumns tb c :
  reachable tb -> In c (MereTable.columns tb) ->
  Forall leaf_or_group (Column.columns c).
Proof.
  intros H Hc; apply reachable_flat in H.
  rewrite Forall_forall in H; specialize (H c Hc).
  eapply Forall_impl; [| exact H]; intros x Hx; now left.
Qed.

(* ================================================================= *)
(** ** Find, AddColumn and AddSubcolumn *)

Lemma Find_titles cs cs' name :
  map Column.title cs = map Column.title cs' ->
  MereTable.Find cs name = MereTable.Find cs' name.
Proof.
  revert cs'; induction cs as [| c cs IH]; intros [| c' cs'] E;
    try discriminate E; [reflexivity |].
  injection E as Et E; cbn [MereTable.Find]; rewrite Et, (IH cs' E).
  reflexivity.
Qed.

Lemma Find_app_new cs c name :
  MereTable.Find cs name = None -> Column.title c = name ->
  MereTable.Find (cs ++ [c]) name = Some (List.length cs).
Proof.
  intros H Ht; induction cs as [| x cs IH]; cbn [MereTable.Find app] in *.
  - rewrite Ht, String.eqb_refl; reflexivity.
  - destruct (String.eqb (Column.title x) name); [discriminate H |].
    destruct (MereTable.Find cs name); [discriminate H |].
    rewrite IH; reflexivity.
Qed.

Lemma Find_first_match (cs : list Column.t) (name : string) :
  match MereTable.Find cs name with
  | Some i =>
      exists c, nth_error cs i = Some c /\ Column.title c = name /\
                forall j c', (j < i)%nat -> nth_error cs j = Some c' ->
                             Column.title c' <> name
  | None => forall c, In c cs -> Column.title c <> name
  end.
Proof.
  induction cs as [| x cs IH]; cbn [MereTable.Find]; [intros c [] |].
  destruct (String.eqb_spec (Column.title x) name) as [E | NE].
  - exists x; repeat split; [assumption | intros j c' Hj; lia].
  - destruct (MereTable.Find cs name) as [i |]; cbn [option_map].
    + destruct IH as (c & Hc & Ht & Hfirst).
      exists c; repeat split; try assumption.
      intros [| j] c' Hj Hn; cbn [nth_error] in Hn.
      * now injection Hn as <-.
      * apply (Hfirst j c'); [lia | assumption].
    + intros c [<- | Hin]; auto.
Qed.

Lemma add_sub_at_titles cs i sub :
  map Column.title (MereTable.add_sub_at cs i sub) = map Column.title cs.
Proof.
  revert i; induction cs as [| c cs IH]; intros [| i];
    cbn [MereTable.add_sub_at map]; try reflexivity.
  now rewrite IH.
Qed.

Lemma add_sub_at_nth cs i sub c :
  nth_error cs i = Some c ->
  nth_error (MereTable.add_sub_at cs i sub) i = Some (Column.AddColumn c sub) /\
  List.length (MereTable.add_sub_at cs i sub) = List.length cs /\
  forall j, j <> i ->
    nth_error (MereTable.add_sub_at cs i sub) j = nth_error cs j.
Proof.
  revert i; induction cs as [| x cs IH]; intros [| i] H;
    cbn [nth_error MereTable.add_sub_at] in *; try discriminate H.
  - injection H as ->; repeat split.
    intros [| j] Hj; [contradiction | reflexivity].
  - destruct (IH i H) as (H1 & H2 & H3); repeat split.
    + exact H1.
    + cbn [List.length]; now rewrite H2.
    + intros [| j] Hj; cbn [nth_error]; [reflexivity | apply H3; lia].
Qed.

Lemma Find_nth cs name i :
  MereTable.Find cs name = Some i ->
  exists c, nth_error cs i = Some c /\ Column.title c = name.
Proof.
  intros H; pose proof (Find_first_match cs name) as F.
  rewrite H in F; destruct F as (c & Hc & Ht & _); eauto.
Qed.

(** X1.  [Find] returns the position of the first column that has the
    title, and finds nothing exactly when no column has it. *)
Theorem X1_Find_first_match (cs : list Column.t) (name : string) :
  match MereTable.Find cs name with
  | Some i =>
      exists c, nth_error cs i = Some c /\ Column.title c = name /\
                forall j c', (j < i)%nat -> nth_error cs j = Some c' ->
                             Column.title c' <> name
  | None => forall c, In c cs -> Column.title c <> name
  end.
Proof. apply Find_first_match. Qed.

Lemma AddSubcolumn_found tb name sub i :
  MereTable.Find (MereTable.columns tb) name = Some i ->
  exists c,
    nth_error (MereTable.columns tb) i = Some c /\
    Column.title c = name /\
    MereTable.Find (MereTable.columns (MereTable.AddSubcolumn tb name sub))
      name = Some i /\
    nth_error (MereTable.columns (MereTable.AddSubcolumn tb name sub)) i =
    Some (Column.AddColumn c sub) /\
    List.length (MereTable.columns (MereTable.AddSubcolumn tb name sub)) =
    List.length (MereTable.columns tb) /\
    forall j, j <> i ->
      nth_error (MereTable.columns (MereTable.AddSubcolumn tb name sub)) j =
      nth_error (MereTable.columns tb) j.
Proof.
  intros H; destruct (Find_nth _ _ _ H) as (c & Hc & Ht).
  exists c; unfold MereTable.AddSubcolumn; rewrite H.
  cbn [MereTable.columns].
  destruct (add_sub_at_nth _ _ sub _ Hc) as (H1 & H2 & H3).
  repeat split; try assumption.
  rewrite <- H; apply Find_titles, add_sub_at_titles.
Qed.

(** X2.  [AddSubcolumn] keeps [numRows].  When [Find] has the column, the
    new leaf goes to the end of the subcolumns of that column (the first
    with the title) and every other column stays; otherwise a column with
    that title and the one subcolumn is pushed back.  Either way [Find]
    then has the column, and its last subcolumn is the new leaf. *)
Theorem X2_AddSubcolumn_effect (tb : MereTable.t) (name sub : string) :
  MereTable.numRows (MereTable.AddSubcolumn tb name sub) =
  MereTable.numRows tb /\
  match MereTable.Find (MereTable.columns tb) name with
  | Some i =>
      exists c,
        nth_error (MereTable.columns tb) i = Some c /\
        nth_error (MereTable.columns (MereTable.AddSubcolumn tb name sub)) i =
        Some (Column.mk (Column.title c) (Column.width c)
                (Column.columns c ++ [Column.new sub]) (Column.values c)) /\
        List.length (MereTable.columns (MereTable.AddSubcolumn tb name sub)) =
        List.length (MereTable.columns tb) /\
        forall j, j <> i ->
          nth_error (MereTable.columns (MereTable.AddSubcolumn tb name sub)) j =
          nth_error (MereTable.columns tb) j
  | None =>
      MereTable.columns (MereTable.AddSubcolumn tb name sub) =
      MereTable.columns tb ++ [Column.mk name 0 [Column.new sub] []]
  end /\
  exists i c old,
    MereTable.Find (MereTable.columns (MereTable.AddSubcolumn tb name sub))
      name = Some i /\
    nth_error (MereTable.columns (MereTable.AddSubcolumn tb name sub)) i =
    Some c /\
    Column.title c = name /\
    Column.columns c = old ++ [Column.new sub].
Proof.
  split; [unfold MereTable.AddSubcolumn; destruct (MereTable.Find _ _);
          reflexivity |].
  destruct (MereTable.Find (MereTable.columns tb) name) as [i |] eqn:F.
  - destruct (AddSubcolumn_found tb name sub i F)
      as (c & Hc & Ht & F' & Hn & Hl & Ho).
    split.
    + exists c; repeat split; assumption.
    + exists i, (Column.AddColumn c sub), (Column.columns c).
      repeat split; assumption.
  - unfold MereTable.AddSubcolumn; rewrite F; cbn [MereTable.columns].
    split; [reflexivity |].
    exists (List.length (MereTable.columns tb)),
      (Column.mk name 0 [Column.new sub] []), [].
    repeat split.
    + now apply Find_app_new.
    + rewrite nth_error_app2, Nat.sub_diag by lia; reflexivity.
Qed.

Lemma AddColumn_finds tb name :
  exists i, MereTable.Find (MereTable.columns (MereTable.AddColumn tb name))
              name = Some i.
Proof.
  unfold MereTable.AddColumn.
  destruct (MereTable.Find (MereTable.columns tb) name) as [i |] eqn:F.
  - eauto.
  - cbn [MereTable.columns]; eexists; now apply Find_app_new.
Qed.

(** X3.  After [AddColumn] the title is found, at the position of its
    first column, and a second [AddColumn] with the same title changes
    nothing. *)
Theorem X3_AddColumn_idempotent (tb : MereTable.t) (name : string) :
  (exists i c,
      MereTable.Find (MereTable.columns (MereTable.AddColumn tb name)) name
      = Some i /\
      nth_error (MereTable.columns (MereTable.AddColumn tb name)) i = Some c /\
      Column.title c = name) /\
  MereTable.AddColumn (MereTable.AddColumn tb name) name =
  MereTable.AddColumn tb name.
Proof.
  destruct (AddColumn_finds tb name) as [i F]; split.
  - destruct (Find_nth _ _ _ F) as (c & Hc & Ht); eauto.
  - unfold MereTable.AddColumn at 1; rewrite F; reflexivity.
Qed.

Lemma Find_None_titles cs name :
  MereTable.Find cs name = None -> ~ In name (map Column.title cs).
Proof.
  intros F Hin; pose proof (Find_first_match cs name) as H; rewrite F in H.
  apply in_map_iff in Hin; destruct Hin as (c & Ht & Hc).
  exact (H c Hc Ht).
Qed.

(** X4.  [AddColumn] and [AddSubcolumn] keep the titles of the top-level
    columns pairwise distinct. *)
Theorem X4_distinct_titles_kept (tb : MereTable.t) (name sub : string) :
  NoDup (titles tb) ->
  NoDup (titles (MereTable.AddColumn tb name)) /\
  NoDup (titles (MereTable.AddSubcolumn tb name sub)).
Proof.
  intros H; unfold titles, MereTable.AddColumn, MereTable.AddSubcolumn.
  destruct (MereTable.Find (MereTable.columns tb) name) as [i |] eqn:F;
    cbn [MereTable.columns].
  - split; [exact H | now rewrite add_sub_at_titles].
  - apply Find_None_titles in F.
    rewrite !map_app; cbn [map Column.title Column.new Column.AddColumn].
    assert (N : NoDup (map Column.title (MereTable.columns tb) ++ [name])).
    { apply NoDup_app; repeat split; [exact H | repeat constructor; intros [] |].
      intros x Hx [<- | []]; contradiction. }
    split; exact N.
Qed.

(* ================================================================= *)
(** ** How many values a row needs *)

Lemma leaves_AddColumn c sub :
  leaves (Column.AddColumn c sub) =
  match Column.columns c with
  | [] => [Column.new sub]
  | _ :: _ => leaves c ++ [Column.new sub]
  end.
Proof.
  destruct c as [ti w [| x l] vs]; [reflexivity |].
  unfold Column.AddColumn; cbn [Column.columns Column.title Column.width
                                   Column.values app].
  rewrite !leaves_group.
  change (x :: l ++ [Column.new sub]) with ((x :: l) ++ [Column.new sub]).
  rewrite flat_map_app; reflexivity.
Qed.

Lemma leaves_add_sub_at cs i sub c :
  nth_error cs i = Some c ->
  List.length (flat_map leaves (MereTable.add_sub_at cs i sub)) =
  (List.length (flat_map leaves cs) +
   match Column.columns c with [] => 0 | _ :: _ => 1 end)%nat.
Proof.
  revert i; induction cs as [| x cs IH]; intros [| i] H;
    cbn [nth_error MereTable.add_sub_at flat_map] in *; try discriminate H.
  - injection H as ->; rewrite !length_app, leaves_AddColumn.
    destruct (Column.columns c) eqn:E.
    + destruct c as [? ? cs' ?]; cbn [Column.columns] in E; subst cs'.
      cbn [leaves List.length]; lia.
    + rewrite length_app; cbn [List.length]; lia.
  - rewrite !length_app, (IH i H); lia.
Qed.

(** X5.  The number of leaves, which is the number of values [AddValues]
    hands out, grows by one per name with [AddColumns], by one with
    [AddColumn] unless the title is there already, and by one with
    [AddSubcolumn] unless the column found was a leaf, whose place the new
    subcolumn takes as the leaf. *)
Theorem X5_leaf_count (tb : MereTable.t) (names : list string)
        (name sub : string) :
  List.length (table_leaves (MereTable.AddColumns tb names)) =
  (List.length (table_leaves tb) + List.length names)%nat /\
  List.length (table_leaves (MereTable.AddColumn tb name)) =
  (List.length (table_leaves tb) +
   match MereTable.Find (MereTable.columns tb) name with
   | Some _ => 0
   | None => 1
   end)%nat /\
  List.length (table_leaves (MereTable.AddSubcolumn tb name sub)) =
  (List.length (table_leaves tb) +
   match MereTable.Find (MereTable.columns tb) name with
   | Some i =>
       match nth_error (MereTable.columns tb) i with
       | Some c => match Column.columns c with [] => 0 | _ :: _ => 1 end
       | None => 0
       end
   | None => 1
   end)%nat.
Proof.
  unfold table_leaves, MereTable.AddColumn, MereTable.AddSubcolumn.
  split; [| split].
  - cbn [MereTable.AddColumns MereTable.columns].
    rewrite flat_map_app, length_app; f_equal.
    induction names as [| n names IH]; [reflexivity |].
    cbn [map flat_map List.length leaves Column.new app]; now rewrite IH.
  - destruct (MereTable.Find _ _); [lia |].
    cbn [MereTable.columns]; rewrite flat_map_app, length_app; reflexivity.
  - destruct (MereTable.Find _ _) as [i |] eqn:F; cbn [MereTable.columns].
    + destruct (Find_nth _ _ _ F) as (c & Hc & _); rewrite Hc.
      now apply leaves_add_sub_at.
    + rewrite flat_map_app, length_app; reflexivity.
Qed.

(* ================================================================= *)
(** ** What ToString does to the table, and when it goes through *)



Lemma table_strip_UpdateWidth tb ub :
  MereTable.UpdateWidth tb = OK ub ->
  map strip (MereTable.columns ub) = map strip (MereTable.columns tb).
Proof.
  intros H; apply table_UpdateWidth_inv in H; destruct H as [H _].
  apply mapM_OK_Forall2 in H.
  induction H; cbn [map]; f_equal; eauto using strip_UpdateWidth.
Qed.

Lemma table_UpdateWidth_idem tb ub :
  MereTable.UpdateWidth tb = OK ub -> MereTable.UpdateWidth ub = OK ub.
Proof.
  intros H; apply table_UpdateWidth_inv in H; destruct H as [H _].
  unfold MereTable.UpdateWidth; rewrite (mapM_UpdateWidth_idem _ _ H).
  now destruct ub.
Qed.

(** [ToString] step by step: only the data rows can fault. *)
Lemma ToString_steps tb :
  exists ub h f,
    MereTable.UpdateWidth tb = OK ub /\
    MereTable.header (MereTable.columns ub) = OK h /\
    MereTable.footer (MereTable.columns ub) = OK f /\
    MereTable.ToString tb =
    (r <- MereTable.rows (MereTable.columns ub) (MereTable.numRows ub) ;;
     OK (ub, String.concat "" (h ++ r ++ [f]))).
Proof.
  destruct (table_UpdateWidth_total tb) as [ub E].
  destruct (header_total (MereTable.columns ub)) as [h Eh].
  destruct (footer_total (MereTable.columns ub)) as [f Ef].
  exists ub, h, f; repeat split; try assumption.
  unfold MereTable.ToString, MereTable.lines; rewrite E; cbn [bind].
  rewrite Eh, Ef; cbn [bind].
  destruct (MereTable.rows _ _); reflexivity.
Qed.



(** X6.  [ToString] changes nothing of the table but the cached widths:
    the titles, the tree, the values and [numRows] are those it found. *)
Theorem X6_ToString_writes_widths_only (tb tb' : MereTable.t) (txt : string) :
  MereTable.ToString tb = OK (tb', txt) ->
  MereTable.numRows tb' = MereTable.numRows tb /\
  map strip (MereTable.columns tb') = map strip (MereTable.columns tb).
Proof.
  intros H; destruct (ToString_steps tb) as (ub & h & f & E & _ & _ & Es).
  rewrite Es in H; apply bind_OK in H; destruct H as (r & _ & H).
  injection H as <- _; split.
  - apply (table_UpdateWidth_inv _ _ E).
  - now apply table_strip_UpdateWidth.
Qed.

(** X7.  Rendering is repeatable: [ToString] on the table it returns gives
    the same table and the same text, so inserting the table in a stream
    twice appends the same text twice. *)
Theorem X7_ToString_repeatable (tb tb' : MereTable.t) (txt : string) :
  MereTable.ToString tb = OK (tb', txt) ->
  MereTable.ToString tb' = OK (tb', txt) /\
  forall os,
    MereTable.operator_lshift os tb = OK ((os ++ txt)%string, tb') /\
    MereTable.operator_lshift (os ++ txt)%string tb' =
    OK (((os ++ txt) ++ txt)%string, tb').
Proof.
  intros H.
  assert (H' : MereTable.ToString tb' = OK (tb', txt)).
  { destruct (ToString_steps tb) as (ub & h & f & E & Eh & Ef & Es).
    rewrite Es in H; apply bind_OK in H; destruct H as (r & Er & H).
    injection H as <- <-.
    destruct (ToString_steps ub) as (ub' & h' & f' & E' & Eh' & Ef' & Es').
    rewrite (table_UpdateWidth_idem _ _ E) in E'; injection E' as <-.
    rewrite Eh in Eh'; injection Eh' as <-.
    rewrite Ef in Ef'; injection Ef' as <-.
    rewrite Es', Er; reflexivity. }
  split; [exact H' |].
  intros os; unfold MereTable.operator_lshift; rewrite H, H'; split;
    reflexivity.
Qed.












(* ================================================================= *)
(** ** Widths that hold the content *)

Lemma UpdateWidth_holds_content c :
  fits c -> forall m, spec_width c <= m ->
  exists u, Column.UpdateWidth c = OK u /\
            holds_content (Column.set_width m u).
Proof.
  induction c as [ti w cs vs IH] using Column.ind_forall.
  intros Hfit m Hm; set (c := Column.mk ti w cs vs) in *.
  destruct (UpdateWidth_fits c Hfit) as (us & Em & _ & E).
  eexists; split; [exact E |].
  pose proof (title_le_spec_width c) as Ht.
  constructor; cbn [Column.set_width Column.title Column.width
                      Column.columns Column.values c] in *.
  - lia.
  - intros Hleaf; apply mapM_OK_Forall2 in Em.
    destruct Em as [| x u l us' _ _]; [| discriminate Hleaf].
    apply Forall_forall; intros v Hv.
    pose proof (values_le_spec_width c v (or_introl eq_refl) Hv); lia.
  - apply mapM_OK_Forall2 in Em.
    assert (Hsub : forall x, In x cs -> spec_width x <= spec_sub_width c /\
                                        fits x).
    { intros x Hx; destruct (fits_sub c x Hx); unfold fits in *; lia. }
    revert Hsub; generalize (spec_sub_width c); intros k Hsub.
    clear - IH Em Hsub.
    induction Em as [| x u l us' Hxu _ IHl]; cbn [map]; constructor.
    + inversion IH as [| ? ? Px _]; subst.
      destruct (Hsub x (or_introl eq_refl)) as [Hk Hf].
      destruct (Px Hf k Hk) as (u' & Eu & Hc); congruence.
    + inversion IH; subst; apply IHl; [assumption |].
      intros y Hy; apply Hsub; now right.
Qed.

(** X10.  After [UpdateWidth] on a column whose widths fit in [int], at
    every depth of the tree the title is no longer than the width, and no
    value of a leaf is longer than the width of the leaf: no cell of the
    table overflows its field. *)
Theorem X10_widths_hold_the_content (c : Column.t) :
  fits c ->
  exists u, Column.UpdateWidth c = OK u /\ holds_content u.
Proof.
  intros Hfit.
  destruct (UpdateWidth_holds_content c Hfit (spec_width c) (Z.le_refl _))
    as (u & E & H).
  exists u; split; [exact E |].
  destruct (UpdateWidth_fits c Hfit) as (us & _ & _ & E').
  rewrite E in E'; injection E' as ->; exact H.
Qed.


(* ================================================================= *)
(** ** Clear against AddValues *)

Lemma AddValues_inv tb vals tb' :
  MereTable.AddValues tb vals = OK tb' ->
  (List.length (table_leaves tb) <= List.length vals)%nat /\
  MereTable.numRows tb' = to_int (MereTable.numRows tb + 1) /\
  map skeleton (MereTable.columns tb') = map skeleton (MereTable.columns tb) /\
  leaf_values tb' = append_row (leaf_values tb) vals.
Proof.
  intros E.
  destruct (Nat.lt_ge_cases (List.length vals) (List.length (table_leaves tb)))
    as [Hlt | Hge].
  - unfold MereTable.AddValues in E; rewrite consume_all_short in E;
      [discriminate E | | exact Hlt].
    apply Forall_forall; intros c _; apply ConsumeValues_short.
  - destruct (AddValues_ok tb vals Hge) as (tb1 & E1 & N & S & V).
    rewrite E in E1; injection E1 as <-; auto.
Qed.

(** [Clear] reads the titles and the tree only. *)
Lemma Clear_skeleton tb1 tb2 :
  map skeleton (MereTable.columns tb1) = map skeleton (MereTable.columns tb2) ->
  MereTable.Clear tb1 = MereTable.Clear tb2.
Proof.
  intros S; unfold MereTable.Clear, MereTable.UpdateWidth.
  cbn [MereTable.columns MereTable.numRows].
  rewrite (mapM_UpdateWidth_skeleton
             (map Column.Clear (MereTable.columns tb2))
             (map Column.Clear (MereTable.columns tb1))); [reflexivity | | |].
  - rewrite !map_map.
    rewrite (map_ext_Forall (fun x => skeleton (Column.Clear x)) skeleton
               (MereTable.columns tb1)),
            (map_ext_Forall (fun x => skeleton (Column.Clear x)) skeleton
               (MereTable.columns tb2));
      [exact S | |]; apply Forall_forall; intros; apply skeleton_Clear.
  - apply Forall_map, Forall_forall; intros; apply no_values_Clear.
  - apply Forall_map, Forall_forall; intros; apply no_values_Clear.
Qed.

Lemma Clear_result_skeleton tb t1 :
  MereTable.Clear tb = OK t1 ->
  map skeleton (MereTable.columns t1) = map skeleton (MereTable.columns tb).
Proof.
  unfold MereTable.Clear; intros H.
  apply table_UpdateWidth_skeleton in H; cbn [MereTable.columns] in H.
  rewrite <- H, map_map.
  apply map_ext_Forall, Forall_forall; intros; apply skeleton_Clear.
Qed.

(** X12.  [Clear] undoes rows: after a successful [AddValues], [Clear]
    gives the very table it gives before it (widths and [numRows]
    included), and [Clear] on a cleared table changes nothing. *)
Theorem X12_Clear_undoes_AddValues
        (tb tb' : MereTable.t) (vals : list string) :
  MereTable.AddValues tb vals = OK tb' ->
  MereTable.Clear tb' = MereTable.Clear tb /\
  exists t1, MereTable.Clear tb = OK t1 /\ MereTable.Clear t1 = OK t1.
Proof.
  intros E; destruct (AddValues_inv _ _ _ E) as (_ & _ & S & _).
  split; [now apply Clear_skeleton |].
  destruct (table_UpdateWidth_total
              (MereTable.mk (map Column.Clear (MereTable.columns tb)) 0))
    as [t1 E1].
  exists t1; split; [exact E1 |].
  rewrite <- E1; apply Clear_skeleton, Clear_result_skeleton, E1.
Qed.

(* ================================================================= *)
(** ** The cursor of ConsumeValues *)

(** X13.  [ConsumeValues] moves the iterator past exactly as many values
    as the column has leaves, whatever follows them, and keeps the titles
    and the tree; with fewer values left it dereferences the iterator at
    the end of the range. *)
Theorem X13_ConsumeValues_cursor (c : Column.t) (it : list string) :
  ((List.length (leaves c) <= List.length it)%nat ->
   exists c',
     Column.ConsumeValues c it = OK (c', skipn (List.length (leaves c)) it) /\
     skeleton c' = skeleton c /\
     List.length (leaves c') = List.length (leaves c) /\
     forall tail,
       Column.ConsumeValues c (firstn (List.length (leaves c)) it ++ tail) =
       OK (c', tail)) /\
  ((List.length it < List.length (leaves c))%nat ->
   Column.ConsumeValues c it = Err PastTheEnd).
Proof.
  split; [| apply ConsumeValues_short].
  intros Hlen; destruct (ConsumeValues_ok c it Hlen) as (c' & E & S & V).
  exists c'; repeat split; try assumption.
  - apply (f_equal (@List.length _)) in V.
    rewrite !length_map in V; rewrite V.
    unfold append_row; rewrite length_map, length_combine, length_map,
                                length_firstn; lia.
  - intros tail.
    destruct (ConsumeValues_ok c (firstn (List.length (leaves c)) it))
      as (c1 & E1 & _); [rewrite length_firstn; lia |].
    assert (R : skipn (List.length (leaves c))
                  (firstn (List.length (leaves c)) it) = []).
    { apply length_zero_iff_nil; rewrite length_skipn, length_firstn; lia. }
    rewrite R in E1.
    pose proof (ConsumeValues_frame c _ _ _
                  (skipn (List.length (leaves c)) it) E1) as F.
    rewrite firstn_skipn, E in F; injection F as ->.
    exact (ConsumeValues_frame c _ _ _ tail E1).
Qed.

(* ================================================================= *)
(** ** Structure first, rows next *)








(* ================================================================= *)
(** ** Structure after rows *)





(* ================================================================= *)
(** ** The number of leaves stays *)

Lemma leaves_length_skeleton c :
  List.length (leaves (skeleton c)) = List.length (leaves c).
Proof.
  induction c as [ti w cs vs IH] using Column.ind_forall.
  destruct cs as [| x l]; [reflexivity |].
  change (skeleton (Column.mk ti w (x :: l) vs))
    with (Column.mk ti 0 (skeleton x :: map skeleton l) []).
  rewrite !leaves_group.
  change (skeleton x :: map skeleton l) with (map skeleton (x :: l)).
  induction IH as [| y k Hy _ IHk]; [reflexivity |].
  cbn [map flat_map]; rewrite !length_app, Hy, IHk; reflexivity.
Qed.

Lemma table_leaves_skeleton tb1 tb2 :
  map skeleton (MereTable.columns tb1) = map skeleton (MereTable.columns tb2) ->
  List.length (table_leaves tb1) = List.length (table_leaves tb2).
Proof.
  unfold table_leaves.
  generalize (MereTable.columns tb1), (MereTable.columns tb2).
  intros a; induction a as [| x a IH]; intros [| y b] E; try discriminate E;
    [reflexivity |].
  injection E as E1 E2; cbn [flat_map]; rewrite !length_app, (IH b E2).
  now rewrite <- (leaves_length_skeleton x), E1, leaves_length_skeleton.
Qed.

(** X16.  The number of values a row needs changes with the structure
    only: [AddValues], [Clear] and [ToString] return a table with as many
    leaves as they found. *)
Theorem X16_leaf_count_stays (tb tb' : MereTable.t) :
  (forall vals, MereTable.AddValues tb vals = OK tb' ->
                List.length (table_leaves tb') = List.length (table_leaves tb)) /\
  (MereTable.Clear tb = OK tb' ->
   List.length (table_leaves tb') = List.length (table_leaves tb)) /\
  (forall txt, MereTable.ToString tb = OK (tb', txt) ->
               List.length (table_leaves tb') = List.length (table_leaves tb)).
Proof.
  split; [| split].
  - intros vals E; apply table_leaves_skeleton.
    apply (AddValues_inv _ _ _ E).
  - intros E; now apply table_leaves_skeleton, Clear_result_skeleton.
  - intros txt E; apply table_leaves_skeleton.
    destruct (ToString_steps tb) as (ub & h & f & Eu & _ & _ & Es).
    rewrite Es in E; apply bind_OK in E; destruct E as (r & _ & E).
    injection E as <- _; symmetry; now apply table_UpdateWidth_skeleton.
Qed.

(* ================================================================= *)
(** ** Worked instances of the further properties *)

(** X4 at [tableG], whose titles are "Name" and "G". *)
Lemma X4_witness :
  NoDup (titles tableG) /\
  NoDup (titles (MereTable.AddColumn tableG "G")) /\
  NoDup (titles (MereTable.AddSubcolumn tableG "H" "c")).
Proof.
  assert (H : NoDup (titles tableG)).
  { constructor; [intros [E | []]; discriminate E |].
    constructor; [intros [] | constructor]. }
  split; [exact H |].
  destruct (X4_distinct_titles_kept tableG "G" "c" H) as [H1 _].
  destruct (X4_distinct_titles_kept tableG "H" "c" H) as [_ H2].
  split; assumption.
Defined.

(** X6 at the table A, B with one row. *)
Lemma X6_witness :
  exists tb' txt,
    MereTable.ToString tableAB_1 = OK (tb', txt) /\
    MereTable.numRows tb' = 1 /\
    map strip (MereTable.columns tb') = map strip (MereTable.columns tableAB_1).
Proof.
  destruct (MereTable.ToString tableAB_1) as [[tb' txt] | e] eqn:E;
    [| exfalso; revert E; vm_compute; discriminate].
  exists tb', txt; split; [reflexivity |].
  exact (X6_ToString_writes_widths_only tableAB_1 tb' txt E).
Defined.

(** X7 at the table A, B with one row. *)
Lemma X7_witness :
  exists tb' txt,
    MereTable.ToString tableAB_1 = OK (tb', txt) /\
    MereTable.ToString tb' = OK (tb', txt).
Proof.
  destruct (MereTable.ToString tableAB_1) as [[tb' txt] | e] eqn:E;
    [| exfalso; revert E; vm_compute; discriminate].
  exists tb', txt; split; [reflexivity |].
  exact (proj1 (X7_ToString_repeatable tableAB_1 tb' txt E)).
Defined.


(** X10 at the group [columnG]. *)
Lemma X10_witness :
  fits columnG /\
  exists u, Column.UpdateWidth columnG = OK u /\ holds_content u.
Proof.
  assert (H : fits columnG) by (apply Z.leb_le; reflexivity).
  split; [exact H | exact (X10_widths_hold_the_content columnG H)].
Defined.


(** X12 at the table A, B and the row (x, y). *)
Lemma X12_witness :
  MereTable.AddValues tableAB ["x"; "y"] = OK tableAB_1 /\
  MereTable.Clear tableAB_1 = MereTable.Clear tableAB.
Proof.
  assert (H : MereTable.AddValues tableAB ["x"; "y"] = OK tableAB_1)
    by reflexivity.
  split; [exact H |].
  exact (proj1 (X12_Clear_undoes_AddValues tableAB tableAB_1 ["x"; "y"] H)).
Defined.

(** X13 at [columnG] with three values, and with one. *)
Lemma X13_witness :
  (exists c', Column.ConsumeValues columnG ["p"; "q"; "r"] = OK (c', ["r"])) /\
  Column.ConsumeValues columnG ["p"] = Err PastTheEnd.
Proof.
  split.
  - destruct (proj1 (X13_ConsumeValues_cursor columnG ["p"; "q"; "r"]))
      as (c' & E & _).
    + apply Nat.leb_le; reflexivity.
    + exists c'; exact E.
  - apply (proj2 (X13_ConsumeValues_cursor columnG ["p"])).
    apply Nat.ltb_lt; reflexivity.
Defined.



(** X16 at the table A, B and the row (x, y). *)
Lemma X16_witness :
  List.length (table_leaves tableAB_1) = List.length (table_leaves tableAB).
Proof.
  apply (proj1 (X16_leaf_count_stays tableAB tableAB_1) ["x"; "y"]).
  reflexivity.
Defined.
